(** * diffty: review ledger, diff aggregation and ledger storage

    A shallow embedding of the Go packages [models], [server] (the
    recording path of [handleReviewState], the status shown by
    [handleDiffView] and [extractFilesFromDiff]) and [storage]
    ([getReviewStatePath], [SaveReviewState], [LoadReviewState]),
    followed by the properties of the specification that concern them.

    Go strings are byte strings: [string] with one [ascii] per byte.  A Go
    [map[string]string] is a [gmap string string]; a nil map and an empty
    map read alike and are both [∅].  A slice is a [list]. *)

From Stdlib Require Import Ascii.
From Stdlib Require String.
From stdpp Require Import base option list sorting gmap strings fin_maps.

(** ** The parts of Go's [strings] package the program calls *)

Module strings.

(** [strings.HasPrefix(s, prefix)]. *)
Fixpoint HasPrefix (s prefix : string) {struct prefix} : bool :=
  match prefix, s with
  | EmptyString, _ => true
  | String p prefix', String c s' =>
      if Ascii.eqb c p then HasPrefix s' prefix' else false
  | String _ _, EmptyString => false
  end.

(** [strings.Split(s, sep)] at a one-byte separator, which is how the
    program calls it ([" "] and ["\n"]): the pieces between the
    separators, with one piece more than there are separators. *)
Fixpoint Split (s : string) (sep : ascii) : list string :=
  match s with
  | EmptyString => [EmptyString]
  | String c s' =>
      if Ascii.eqb c sep then EmptyString :: Split s' sep
      else match Split s' sep with
           | piece :: pieces => String c piece :: pieces
           | [] => [String c EmptyString]
           end
  end.

(** [strings.Join(elems, sep)]. *)
Fixpoint Join (elems : list string) (sep : string) : string :=
  match elems with
  | [] => EmptyString
  | [e] => e
  | e :: rest => e +:+ sep +:+ Join rest sep
  end.

(** [strings.ReplaceAll(s, old, new)] at a one-byte [old]. *)
Fixpoint ReplaceAll (s : string) (old : ascii) (new : string) : string :=
  match s with
  | EmptyString => EmptyString
  | String c s' =>
      if Ascii.eqb c old then new +:+ ReplaceAll s' old new
      else String c (ReplaceAll s' old new)
  end.

(** The slice expression [s[n:]]: Go panics when [n] exceeds [len(s)],
    which is the [None] here. *)
Fixpoint slice_from (s : string) (n : nat) {struct n} : option string :=
  match n, s with
  | O, _ => Some s
  | S n', String _ s' => slice_from s' n'
  | S _, EmptyString => None
  end.

(** [a < b] on Go strings: bytewise lexicographic order. *)
Definition lt (a b : string) : bool := String.ltb a b.

(** [strings.Cut(s, sep)] at a one-byte separator: the text before and
    after the first separator, and whether there is one. *)
Fixpoint Cut (s : string) (sep : ascii) : string * string * bool :=
  match s with
  | EmptyString => (EmptyString, EmptyString, false)
  | String c s' =>
      if Ascii.eqb c sep then (EmptyString, s', true)
      else let '(before, after, found) := Cut s' sep in
           (String c before, after, found)
  end.

(** [strings.Contains(s, substr)] at a one-byte [substr]. *)
Fixpoint ContainsByte (s : string) (c : ascii) : bool :=
  match s with
  | EmptyString => false
  | String c' s' => if Ascii.eqb c' c then true else ContainsByte s' c
  end.

(** The string of the given bytes. *)
Definition bytes (codes : list nat) : string :=
  foldr (λ n s, String (ascii_of_nat n) s) EmptyString codes.

(** The ASCII white space of [strings.TrimSpace]: tab, line feed,
    vertical tab, form feed, carriage return, space. *)
Definition asciiSpace (c : ascii) : bool :=
  bool_decide (nat_of_ascii c ∈ [9; 10; 11; 12; 13; 32]).

(** The UTF-8 encodings of the other runes for which [unicode.IsSpace]
    holds: U+0085, U+00A0, U+1680, U+2000 to U+200A, U+2028, U+2029,
    U+202F, U+205F and U+3000. *)
Definition spaceRunes : list string :=
  [ bytes [194; 133]; bytes [194; 160]; bytes [225; 154; 128];
    bytes [226; 128; 128]; bytes [226; 128; 129]; bytes [226; 128; 130];
    bytes [226; 128; 131]; bytes [226; 128; 132]; bytes [226; 128; 133];
    bytes [226; 128; 134]; bytes [226; 128; 135]; bytes [226; 128; 136];
    bytes [226; 128; 137]; bytes [226; 128; 138]; bytes [226; 128; 168];
    bytes [226; 128; 169]; bytes [226; 128; 175]; bytes [226; 129; 159];
    bytes [227; 128; 128] ].

(** [s] without the white space rune it begins with, if it begins
    with one of [runes] or with ASCII white space. *)
Definition dropSpace (runes : list string) (s : string) : option string :=
  match s with
  | EmptyString => None
  | String c s' =>
      if asciiSpace c then Some s'
      else match list_find (λ rune, HasPrefix s rune = true) runes with
           | Some (_, rune) => slice_from s (String.length rune)
           | None => None
           end
  end.

Fixpoint trimLeading (runes : list string) (fuel : nat) (s : string) : string :=
  match fuel with
  | O => s
  | S fuel' =>
      match dropSpace runes s with
      | Some s' => trimLeading runes fuel' s'
      | None => s
      end
  end.

(** [strings.TrimSpace(s)]: the leading white space runes go, then
    the trailing ones (found from the end of the string, the bytes of
    a rune in reverse). *)
Definition TrimSpace (s : string) : string :=
  let s := trimLeading spaceRunes (String.length s) s in
  String.rev (trimLeading (String.rev <$> spaceRunes) (String.length s) (String.rev s)).

End strings.

(** ** Package [models] *)

Module models.

Record FileReview := {
  Repo : string;
  Path : string;
  Lines : gmap string string  (* line number or range -> state *)
}.

Record ReviewState := {
  ReviewedFiles : list FileReview;
  SourceBranch : string;
  TargetBranch : string;
  SourceCommit : string;
  TargetCommit : string
}.

Definition StateApproved : string := "approved".
Definition StateRejected : string := "rejected".
Definition StateSkipped : string := "skipped".

#[global] Instance FileReview_eq_dec : EqDecision FileReview.
Proof. solve_decision. Defined.

#[global] Instance ReviewState_eq_dec : EqDecision ReviewState.
Proof. solve_decision. Defined.

End models.

Import models.

(** ** Package [server] *)

Module server.

(** An element of the file list: the Go code builds a
    [map[string]string] holding exactly the keys ["Path"] and
    ["Status"]. *)
Record FileEntry := { EPath : string; EStatus : string }.

#[global] Instance FileEntry_eq_dec : EqDecision FileEntry.
Proof. solve_decision. Defined.

(** *** Recording a decision ([handleReviewState], the loop and the
    append that follow the load) *)

Definition matches (filePath repoPath : string) (review : FileReview) : Prop :=
  Path review = filePath ∧ Repo review = repoPath.

#[global] Instance matches_dec filePath repoPath review :
  Decision (matches filePath repoPath review).
Proof. unfold matches. apply _. Defined.

(** [Lines["all"] = status], on the map or, were it nil, on a new map. *)
Definition setAll (status : string) (review : FileReview) : FileReview :=
  {| Repo := Repo review; Path := Path review;
     Lines := <["all" := status]> (Lines review) |}.

Definition record (existingState : ReviewState)
    (repoPath filePath status : string) : ReviewState :=
  let files := ReviewedFiles existingState in
  let files' :=
    match list_find (matches filePath repoPath) files with
    | Some (i, review) => <[i := setAll status review]> files
    | None =>
        files ++ [ {| Repo := repoPath; Path := filePath;
                      Lines := {["all" := status]} |} ]
    end in
  {| ReviewedFiles := files';
     SourceBranch := SourceBranch existingState;
     TargetBranch := TargetBranch existingState;
     SourceCommit := SourceCommit existingState;
     TargetCommit := TargetCommit existingState |}.

(** *** The status of the selected file ([handleDiffView]) *)

Definition statusSet (lines : gmap string string) : gset string :=
  map_fold (λ _ status statuses, {[status]} ∪ statuses) ∅ lines.

Definition fileStatus (reviewState : ReviewState)
    (repoPath filePath : string) : string :=
  match list_find (matches filePath repoPath) (ReviewedFiles reviewState) with
  | Some (_, review) =>
      let statuses := statusSet (Lines review) in
      if decide (size statuses = 1) then
        foldl (λ _ status, status) "unreviewed" (elements statuses)
      else if decide (1 < size statuses) then "mixed"
      else "unreviewed"
  | None => "unreviewed"
  end.

(** *** The file list ([extractFilesFromDiff]) *)

(** The three flags set by the loop over [review.Lines]. *)
Definition lineFlags (lines : gmap string string) : bool * bool * bool :=
  map_fold (λ _ status '(approved, rejected, skipped),
              if decide (status = StateApproved) then (true, rejected, skipped)
              else if decide (status = StateRejected) then (approved, true, skipped)
              else if decide (status = StateSkipped) then (approved, rejected, true)
              else (approved, rejected, skipped))
           (false, false, false) lines.

(** Prioritize rejection, then approval, then skipped. *)
Definition reviewStatus (review : FileReview) : string :=
  let '(approved, rejected, skipped) := lineFlags (Lines review) in
  if rejected then StateRejected
  else if approved then StateApproved
  else if skipped then StateSkipped
  else "unreviewed".

Definition fileStatusMap (reviewState : ReviewState) (repoPath : string)
    : gmap string string :=
  foldl (λ m review,
           if decide (Repo review ≠ repoPath) then m
           else <[Path review := reviewStatus review]> m)
        ∅ (ReviewedFiles reviewState).

(** One line of the diff: [None] is a run-time panic (index or slice
    out of range), [Some None] a line that emits nothing, and
    [Some (Some p)] a header that emits the path [p]. *)
Definition headerPath (line : string) : option (option string) :=
  if strings.HasPrefix line "diff --git " then
    let parts := strings.Split line " "%char in
    if decide (4 ≤ length parts) then
      bPath ← parts !! 3;
      if strings.HasPrefix bPath "b/" then
        filePath ← strings.slice_from bPath 2;
        Some (Some filePath)
      else Some None
    else Some None
  else Some None.

Definition extractLoop (statusMap : gmap string string)
    : list string → list FileEntry → option (list FileEntry) :=
  fix go lines files :=
    match lines with
    | [] => Some files
    | line :: lines' =>
        r ← headerPath line;
        match r with
        | Some filePath =>
            let status := default "unreviewed" (statusMap !! filePath) in
            go lines' (files ++ [ {| EPath := filePath; EStatus := status |} ])
        | None => go lines' files
        end
    end.

(** Priority order: unreviewed > skipped > rejected > approved.  A Go
    map yields the zero value at a missing key. *)
Definition statusPriority : gmap string nat :=
  {[ "unreviewed" := 0; StateSkipped := 1; StateRejected := 2; StateApproved := 3 ]}.

Definition priority (status : string) : nat :=
  default 0 (statusPriority !! status).

Definition less (a b : FileEntry) : bool :=
  let iPriority := priority (EStatus a) in
  let jPriority := priority (EStatus b) in
  if decide (iPriority ≠ jPriority) then bool_decide (iPriority < jPriority)
  else strings.lt (EPath a) (EPath b).

(** [a] may stand before [b] in a slice sorted by [less]. *)
Definition notAfter (a b : FileEntry) : Prop := less b a = false.

#[global] Instance notAfter_dec a b : Decision (notAfter a b).
Proof. unfold notAfter. apply _. Defined.

(** [sort.Slice(files, less)] puts the slice in an order in which no
    element stands before one that is [less]; it does not promise to
    keep the order of elements that compare equal.  Merge sort is one
    such sort, and [sort_Slice_unique] below shows that on the file
    list every such sort returns the same slice. *)
Definition sort_Slice (files : list FileEntry) : list FileEntry :=
  merge_sort notAfter files.

(** [None] is a run-time panic of the loop over the lines; the theorems
    below show that there is none. *)
Definition extractFilesFromDiff (diffText : string)
    (reviewState : ReviewState) (repoPath : string) : option (list FileEntry) :=
  let lines := strings.Split diffText "010"%char in
  let statusMap := fileStatusMap reviewState repoPath in
  files ← extractLoop statusMap lines [];
  Some (sort_Slice files).

End server.

(** ** The parts of [path/filepath] the program calls (Unix: the
    separator is ["/"]) *)

Module filepath.

(** One element of the path met by [Clean]; [out] holds the elements
    kept so far, the last one first. *)
Definition cleanStep (rooted : bool) (out : list string) (elem : string)
    : list string :=
  if decide (elem = "") then out            (* empty path element *)
  else if decide (elem = ".") then out      (* . element *)
  else if decide (elem = "..") then
    match out with
    | top :: out' =>
        if decide (top = "..") then elem :: out   (* cannot backtrack *)
        else out'                                 (* can backtrack *)
    | [] => if rooted then out else [elem]
    end
  else elem :: out.

(** [filepath.Clean(path)]. *)
Definition Clean (path : string) : string :=
  if decide (path = "") then "."
  else
    let rooted := strings.HasPrefix path "/" in
    let out := foldl (cleanStep rooted) [] (strings.Split path "/"%char) in
    let body := strings.Join (reverse out) "/" in
    if rooted then "/" +:+ body
    else if decide (body = "") then "." else body.

(** [filepath.Join(elem...)]: the elements from the first non-empty one
    on, joined by the separator and cleaned. *)
Fixpoint Join (elem : list string) : string :=
  match elem with
  | [] => ""
  | e :: rest =>
      if decide (e ≠ "") then Clean (strings.Join elem "/") else Join rest
  end.



(** The path without its trailing separators. *)
Fixpoint stripSeparators (path : string) : string :=
  match path with
  | EmptyString => EmptyString
  | String c path' =>
      match stripSeparators path' with
      | EmptyString => if Ascii.eqb c "/" then EmptyString else String c EmptyString
      | rest => String c rest
      end
  end.

(** [filepath.Base(path)]: the last element of the path. *)
Definition Base (path : string) : string :=
  if decide (path = "") then "."
  else
    let path := stripSeparators path in
    let path := default "" (last (strings.Split path "/"%char)) in
    if decide (path = "") then "/" else path.

End filepath.

(** ** [encoding/json], at the level of JSON values

    The text layer of [encoding/json] (escapes, indentation, white space)
    is not represented: a document is the JSON value its text denotes. *)

Module json.

#[warnings="-register-all"]
Inductive value :=
| Null
| Bool (b : bool)
| Number (literal : string)
| Str (s : string)
| Array (elems : list value)
| Object (members : list (string * value)).

(** What [json.Marshal] writes for the two structs.  Fields come in
    declaration order under their tags.  The members of ["lines"] are
    the entries of the map (Go writes them in key order, which no
    reader of the document depends on). *)
Definition marshalLines (lines : gmap string string) : value :=
  Object ((λ kv, (kv.1, Str kv.2)) <$> map_to_list lines).

Definition marshalFileReview (review : FileReview) : value :=
  Object [ ("repo", Str (Repo review));
           ("path", Str (Path review));
           ("lines", marshalLines (Lines review)) ].

Definition Marshal (state : ReviewState) : value :=
  Object [ ("reviewed_files", Array (marshalFileReview <$> ReviewedFiles state));
           ("source_branch", Str (SourceBranch state));
           ("target_branch", Str (TargetBranch state));
           ("source_commit", Str (SourceCommit state));
           ("target_commit", Str (TargetCommit state)) ].

(** [json.Unmarshal] into the two structs.  [None] is the
    [UnmarshalTypeError] of a JSON value of the wrong kind.  A JSON
    null leaves a string or a struct as it is and sets a map or a slice
    to nil.  A member whose key names no field is skipped; keys match
    field tags without regard to (ASCII) letter case. *)

Definition lower (c : ascii) : ascii :=
  let n := nat_of_ascii c in
  if decide (65 ≤ n ∧ n ≤ 90) then ascii_of_nat (n + 32) else c.

Fixpoint fold (s : string) : string :=
  match s with
  | EmptyString => EmptyString
  | String c s' => String (lower c) (fold s')
  end.

Definition isField (key tag : string) : bool :=
  bool_decide (fold key = fold tag).

Definition unmarshalString (v : value) (cur : string) : option string :=
  match v with
  | Str s => Some s
  | Null => Some cur
  | _ => None
  end.

(** Into a map: the entries are added to the map that is there. *)
Definition unmarshalLines (v : value) (cur : gmap string string)
    : option (gmap string string) :=
  match v with
  | Object members =>
      foldl (λ acc kv, m ← acc; s ← unmarshalString kv.2 ""; Some (<[kv.1 := s]> m))
            (Some cur) members
  | Null => Some ∅
  | _ => None
  end.

Definition fileReviewMember (acc : option FileReview) (kv : string * value)
    : option FileReview :=
  review ← acc;
  if isField kv.1 "repo" then
    s ← unmarshalString kv.2 (Repo review);
    Some {| Repo := s; Path := Path review; Lines := Lines review |}
  else if isField kv.1 "path" then
    s ← unmarshalString kv.2 (Path review);
    Some {| Repo := Repo review; Path := s; Lines := Lines review |}
  else if isField kv.1 "lines" then
    m ← unmarshalLines kv.2 (Lines review);
    Some {| Repo := Repo review; Path := Path review; Lines := m |}
  else Some review.

Definition unmarshalFileReview (v : value) (cur : FileReview)
    : option FileReview :=
  match v with
  | Object members => foldl fileReviewMember (Some cur) members
  | Null => Some cur
  | _ => None
  end.

Definition zeroFileReview : FileReview :=
  {| Repo := ""; Path := ""; Lines := ∅ |}.

(** Into a slice: one element for each element of the array.  (Each is
    decoded into a zero struct; [encoding/json] decodes into the
    elements already in the slice when a document repeats the
    ["reviewed_files"] key, which no document written by [Marshal]
    does.) *)
Definition unmarshalFiles (v : value) (cur : list FileReview)
    : option (list FileReview) :=
  match v with
  | Array elems => mapM (λ e, unmarshalFileReview e zeroFileReview) elems
  | Null => Some []
  | _ => None
  end.

Definition withFiles (state : ReviewState) (files : list FileReview) :=
  {| ReviewedFiles := files;
     SourceBranch := SourceBranch state; TargetBranch := TargetBranch state;
     SourceCommit := SourceCommit state; TargetCommit := TargetCommit state |}.

Definition reviewStateMember (acc : option ReviewState) (kv : string * value)
    : option ReviewState :=
  state ← acc;
  if isField kv.1 "reviewed_files" then
    files ← unmarshalFiles kv.2 (ReviewedFiles state);
    Some (withFiles state files)
  else if isField kv.1 "source_branch" then
    s ← unmarshalString kv.2 (SourceBranch state);
    Some {| ReviewedFiles := ReviewedFiles state;
            SourceBranch := s; TargetBranch := TargetBranch state;
            SourceCommit := SourceCommit state; TargetCommit := TargetCommit state |}
  else if isField kv.1 "target_branch" then
    s ← unmarshalString kv.2 (TargetBranch state);
    Some {| ReviewedFiles := ReviewedFiles state;
            SourceBranch := SourceBranch state; TargetBranch := s;
            SourceCommit := SourceCommit state; TargetCommit := TargetCommit state |}
  else if isField kv.1 "source_commit" then
    s ← unmarshalString kv.2 (SourceCommit state);
    Some {| ReviewedFiles := ReviewedFiles state;
            SourceBranch := SourceBranch state; TargetBranch := TargetBranch state;
            SourceCommit := s; TargetCommit := TargetCommit state |}
  else if isField kv.1 "target_commit" then
    s ← unmarshalString kv.2 (TargetCommit state);
    Some {| ReviewedFiles := ReviewedFiles state;
            SourceBranch := SourceBranch state; TargetBranch := TargetBranch state;
            SourceCommit := SourceCommit state; TargetCommit := s |}
  else Some state.

Definition zeroReviewState : ReviewState :=
  {| ReviewedFiles := []; SourceBranch := ""; TargetBranch := "";
     SourceCommit := ""; TargetCommit := "" |}.

(** What [json.MarshalIndent] writes for the list of repositories, and
    [json.Unmarshal] into a [[]string].  As for the ledgers, a string is
    the value of its JSON text: the text layer, in which [encoding/json]
    replaces bytes that are not valid UTF-8 by U+FFFD, is not
    represented. *)
Definition marshalRepositories (repos : list string) : value :=
  Array (Str <$> repos).

Definition unmarshalRepositories (v : value) : option (list string) :=
  match v with
  | Array elems => mapM (λ e, unmarshalString e "") elems
  | Null => Some []
  | _ => None
  end.

(** [var state models.ReviewState; json.Unmarshal(data, &state)]. *)
Definition Unmarshal (v : value) : option ReviewState :=
  match v with
  | Object members => foldl reviewStateMember (Some zeroReviewState) members
  | Null => Some zeroReviewState
  | _ => None
  end.

End json.

(** ** Package [storage] *)

Module storage.

(** What a file holds: text that is a JSON document, or other text
    (on which [json.Unmarshal] reports a syntax error). *)
Inductive data :=
| Document (v : json.value)
| Garbage (raw : string).

(** The file tree, as far as the ledger code can tell: the regular
    files by path.  Directories are not represented; the program
    creates them with [os.MkdirAll] and only logs a failure to do so.
    Faults of the device are outside the model. *)
Definition disk := gmap string data.

Inductive error :=
| ErrCommitsRequired   (* "source and target commit hashes are required" *)
| ErrMarshal           (* "failed to marshal review state" *)
| ErrWrite             (* "failed to write review state" *)
| ErrRead              (* "failed to read review state" *)
| ErrUnmarshal.        (* "failed to unmarshal review state" *)

Record JSONStorage := {
  baseStoragePath : string;
  reposPath : string
}.

Definition safeRepoPath (repoPath : string) : string :=
  let safeRepoPath := strings.ReplaceAll repoPath "/"%char "_" in
  strings.ReplaceAll safeRepoPath ":"%char "_".

Definition getReviewStatePath (s : JSONStorage)
    (repoPath sourceCommit targetCommit : string) : string :=
  let reviewDir :=
    filepath.Join [baseStoragePath s; safeRepoPath repoPath; sourceCommit; targetCommit] in
  filepath.Join [reviewDir; "review-state.json"].

(** [os.WriteFile], [os.Stat] followed by [os.IsNotExist], and
    [os.ReadFile], on the model of the file tree. *)
Definition WriteFile (d : disk) (name : string) (content : data) : option disk :=
  Some (<[name := content]> d).

Definition notExist (d : disk) (name : string) : bool :=
  bool_decide (d !! name = None).

Definition ReadFile (d : disk) (name : string) : option data := d !! name.

(** [json.MarshalIndent] has no error to report on a [ReviewState]
    (strings, a slice of structs, a map from strings to strings). *)
Definition SaveReviewState (s : JSONStorage) (state : ReviewState)
    (repoPath : string) (d : disk) : option error * disk :=
  if decide (SourceCommit state = "" ∨ TargetCommit state = "") then
    (Some ErrCommitsRequired, d)
  else
    let storagePath :=
      getReviewStatePath s repoPath (SourceCommit state) (TargetCommit state) in
    let content := Document (json.Marshal state) in
    match WriteFile d storagePath content with
    | Some d' => (None, d')
    | None => (Some ErrWrite, d)
    end.

Definition emptyState (sourceBranch targetBranch sourceCommit targetCommit : string)
    : ReviewState :=
  {| ReviewedFiles := [];
     SourceBranch := sourceBranch; TargetBranch := targetBranch;
     SourceCommit := sourceCommit; TargetCommit := targetCommit |}.

Definition LoadReviewState (s : JSONStorage)
    (repoPath sourceBranch targetBranch sourceCommit targetCommit : string)
    (d : disk) : ReviewState + error :=
  if decide (sourceCommit = "" ∨ targetCommit = "") then
    inl (emptyState sourceBranch targetBranch sourceCommit targetCommit)
  else
    let storagePath := getReviewStatePath s repoPath sourceCommit targetCommit in
    if notExist d storagePath then
      inl (emptyState sourceBranch targetBranch sourceCommit targetCommit)
    else
      match ReadFile d storagePath with
      | None => inr ErrRead
      | Some (Garbage _) => inr ErrUnmarshal
      | Some (Document v) =>
          match json.Unmarshal v with
          | Some state => inl state
          | None => inr ErrUnmarshal
          end
      end.



Inductive reposError :=
| ErrWriteRepos        (* "failed to write repositories" *)
| ErrReadRepos         (* "failed to read repositories" *)
| ErrUnmarshalRepos.   (* "failed to unmarshal repositories" *)


Definition LoadRepositories (s : JSONStorage) (d : disk)
    : list string + reposError :=
  if notExist d (reposPath s) then inl []
  else
    match ReadFile d (reposPath s) with
    | None => inr ErrReadRepos
    | Some (Garbage _) => inr ErrUnmarshalRepos
    | Some (Document v) =>
        match json.unmarshalRepositories v with
        | Some repos => inl repos
        | None => inr ErrUnmarshalRepos
        end
    end.

End storage.

(** ** The parts of [net/url] the program calls *)

Module url.

Definition isAlnum (c : ascii) : bool :=
  let n := nat_of_ascii c in
  bool_decide (97 ≤ n ≤ 122 ∨ 65 ≤ n ≤ 90 ∨ 48 ≤ n ≤ 57).

(** [shouldEscape(c, encodeQueryComponent)]: all bytes but letters,
    digits and the marks [-], [_], [.] and [~]. *)
Definition shouldEscape (c : ascii) : bool :=
  if isAlnum c then false
  else if bool_decide (nat_of_ascii c ∈ [45; 95; 46; 126]) then false
  else true.

Definition upperhex (n : nat) : ascii :=
  default "0"%char (String.get n "0123456789ABCDEF").

(** [url.QueryEscape(s)]. *)
Fixpoint QueryEscape (s : string) : string :=
  match s with
  | EmptyString => EmptyString
  | String c s' =>
      if shouldEscape c then
        if Ascii.eqb c " " then String "+" (QueryEscape s')
        else String "%" (String (upperhex (nat_of_ascii c / 16))
                           (String (upperhex (nat_of_ascii c mod 16))
                              (QueryEscape s')))
      else String c (QueryEscape s')
  end.

Definition ishex (c : ascii) : bool :=
  let n := nat_of_ascii c in
  bool_decide (48 ≤ n ≤ 57 ∨ 97 ≤ n ≤ 102 ∨ 65 ≤ n ≤ 70).

Definition unhex (c : ascii) : nat :=
  let n := nat_of_ascii c in
  if decide (48 ≤ n ≤ 57) then n - 48
  else if decide (97 ≤ n ≤ 102) then n - 97 + 10
  else if decide (65 ≤ n ≤ 70) then n - 65 + 10
  else 0.

(** [url.QueryUnescape(s)]; [None] is the error on a [%] that two
    hexadecimal digits do not follow. *)
Fixpoint QueryUnescape (s : string) : option string :=
  match s with
  | EmptyString => Some EmptyString
  | String c s' =>
      if Ascii.eqb c "%" then
        match s' with
        | String h1 (String h2 rest) =>
            if ishex h1 && ishex h2 then
              t ← QueryUnescape rest;
              Some (String (ascii_of_nat (unhex h1 * 16 + unhex h2)) t)
            else None
        | _ => None
        end
      else if Ascii.eqb c "+" then t ← QueryUnescape s'; Some (String " " t)
      else t ← QueryUnescape s'; Some (String c t)
  end.

(** [url.Values]: the values of each key, in order. *)
Abbreviation Values := (gmap string (list string)).

(** One turn of the loop of [parseQuery], on the text up to the next
    [&]; the flag records that an error was met. *)
Definition parseQueryKey (acc : Values * bool) (key : string) : Values * bool :=
  let '(m, err) := acc in
  if strings.ContainsByte key ";" then (m, true)
  else if decide (key = "") then (m, err)
  else
    let '(key, value, _) := strings.Cut key "=" in
    match QueryUnescape key with
    | None => (m, true)
    | Some key =>
        match QueryUnescape value with
        | None => (m, true)
        | Some value => (<[key := default [] (m !! key) ++ [value]]> m, err)
        end
    end.

(** [url.ParseQuery(query)]: the loop cuts the query at each [&]. *)
Definition ParseQuery (query : string) : Values * bool :=
  foldl parseQueryKey (∅, false) (strings.Split query "&"%char).

(** [u.Query()] drops the error of [ParseQuery]. *)
Definition Query (rawQuery : string) : Values := (ParseQuery rawQuery).1.

(** [v.Get(key)]. *)
Definition Get (v : Values) (key : string) : string :=
  default "" (head (default [] (v !! key))).

End url.

(** ** Package [git] *)

Module git.

Record Repository := { Name : string; Path : string }.

(** What the package asks of the system it runs on: the working
    directory ([None] when [os.Getwd] fails), whether [os.Stat] finds a
    name, and the standard output of a command, or the text of the
    error of [cmd.Run]. *)
Record Env := {
  Getwd : option string;
  Stat : string → bool;
  Run : list string → string + string
}.


Definition NewRepository (path : string) : Repository :=
  {| Name := filepath.Base path; Path := path |}.

Definition GetBranches (env : Env) (r : Repository) : list string + string :=
  match Run env ["git"; "-C"; Path r; "branch"; "--format=%(refname:short)"] with
  | inr err => inr ("failed to list branches: " +:+ err)
  | inl out => inl (strings.Split (strings.TrimSpace out) "010"%char)
  end.

Definition GetBranchCommitHash (env : Env) (r : Repository) (branch : string)
    : string + string :=
  match Run env ["git"; "-C"; Path r; "rev-parse"; branch] with
  | inr err =>
      inr ("failed to get commit hash for branch " +:+ branch +:+ ": " +:+ err)
  | inl out => inl (strings.TrimSpace out)
  end.

Definition GetDiff (env : Env) (r : Repository) (sourceBranch targetBranch : string)
    : string + string :=
  match Run env ["git"; "-C"; Path r; "diff"; "--no-color"; targetBranch; sourceBranch] with
  | inr err => inr ("failed to get diff: " +:+ err)
  | inl out => inl out
  end.

Definition GetFileDiff (env : Env) (r : Repository)
    (sourceBranch targetBranch filePath : string) : string + string :=
  match Run env ["git"; "-C"; Path r; "diff"; "--no-color"; targetBranch; sourceBranch;
                 "--"; filePath] with
  | inr err => inr ("failed to get file diff: " +:+ err)
  | inl out => inl out
  end.

Definition GetFiles (env : Env) (r : Repository) (sourceBranch targetBranch : string)
    : list string + string :=
  match Run env ["git"; "-C"; Path r; "diff"; "--name-only"; targetBranch; sourceBranch] with
  | inr err => inr ("failed to get changed files: " +:+ err)
  | inl out =>
      let files := strings.Split (strings.TrimSpace out) "010"%char in
      (* Handle empty diff case *)
      if decide (length files = 1 ∧ files !! 0 = Some "") then inl []
      else inl files
  end.

End git.

(** ** The methods of [Server] *)

Module Server.

Import storage.



(** [GetRepository] returns the repository and [true], here [Some], or
    [nil] and [false], or an error. *)
Definition GetRepository (s : JSONStorage) (path : string) (d : disk)
    : option git.Repository + reposError :=
  match LoadRepositories s d with
  | inr e => inr e
  | inl repos =>
      if bool_decide (path ∈ repos) then inl (Some (git.NewRepository path))
      else inl None
  end.

Definition GetRepositories (s : JSONStorage) (d : disk)
    : gmap string git.Repository + reposError :=
  match LoadRepositories s d with
  | inr e => inr e
  | inl repos =>
      inl (foldl (λ reposMap path, <[path := git.NewRepository path]> reposMap) ∅ repos)
  end.

(** What [handleDiffView] passes to the template [diff.html]; a key
    that the handler may leave out is an [option]. *)
Record diffData := {
  dRepoPath : string;
  dRepoName : string;
  dSourceBranch : string;
  dTargetBranch : string;
  dSourceCommit : string;
  dTargetCommit : string;
  dError : string;
  dNoDiff : bool;
  dReviewState : ReviewState;
  dFiles : option (list server.FileEntry);
  dSelectedFile : option string;
  dDiffLines : option (list string);
  dFileStatus : option string;
  dNextFilePath : option string
}.

(** What a handler answers: an error page ([renderError], of which the
    title and the status code are kept), a redirect, the page of the
    diff view, or a run-time panic. *)
Inductive response :=
| ErrorPage (title : string) (statusCode : nat)
| Redirect (location : string) (statusCode : nat)
| DiffPage (data : diffData)
| Panicked.

(** [r.URL.Query().Get(key)] on the raw query of the request. *)
Definition param (rawQuery key : string) : string :=
  url.Get (url.Query rawQuery) key.

Definition handleReviewState (s : JSONStorage) (method rawQuery : string) (d : disk)
    : response * disk :=
  if decide (method ≠ "POST") then (ErrorPage "Method Not Allowed" 405, d)
  else
    let repoPath := param rawQuery "repo" in
    let sourceBranch := param rawQuery "source" in
    let targetBranch := param rawQuery "target" in
    let sourceCommit := param rawQuery "source_commit" in
    let targetCommit := param rawQuery "target_commit" in
    let filePath := param rawQuery "file" in
    let status := param rawQuery "status" in
    let nextFilePath := param rawQuery "next" in
    if decide (repoPath = "" ∨ sourceBranch = "" ∨ targetBranch = "" ∨
               sourceCommit = "" ∨ targetCommit = "" ∨ filePath = "" ∨ status = "")
    then (ErrorPage "Missing Parameters" 400, d)
    else if decide (status ≠ StateApproved ∧ status ≠ StateRejected ∧
                    status ≠ StateSkipped)
    then (ErrorPage "Invalid Status" 400, d)
    else
      match LoadReviewState s repoPath sourceBranch targetBranch
              sourceCommit targetCommit d with
      | inr _ => (ErrorPage "Review State Error" 500, d)
      | inl existingState =>
          let existingState := server.record existingState repoPath filePath status in
          match SaveReviewState s existingState repoPath d with
          | (Some _, d') => (ErrorPage "Review State Error" 500, d')
          | (None, d') =>
              let redirectPath :=
                "/diff?repo=" +:+ url.QueryEscape repoPath +:+
                "&source=" +:+ url.QueryEscape sourceBranch +:+
                "&target=" +:+ url.QueryEscape targetBranch +:+
                "&source_commit=" +:+ url.QueryEscape sourceCommit +:+
                "&target_commit=" +:+ url.QueryEscape targetCommit in
              let redirectPath :=
                if decide (nextFilePath ≠ "" ∧
                           (status = StateApproved ∨ status = StateRejected ∨
                            status = StateSkipped))
                then redirectPath +:+ "&file=" +:+ url.QueryEscape nextFilePath
                else if decide (filePath ≠ "")
                then redirectPath +:+ "&file=" +:+ url.QueryEscape filePath
                else redirectPath in
              (Redirect redirectPath 303, d')
          end
      end.

(** The next file for navigation: the one after the first file of the
    list with the path of the selected file.  The outer [None] is an
    index out of range. *)
Definition nextFilePath (files : list server.FileEntry) (filePath : string)
    : option (option string) :=
  if decide (0 < length files) then
    match list_find (λ file, server.EPath file = filePath) files with
    | Some (currentIndex, _) =>
        if decide (currentIndex < length files - 1) then
          file ← files !! (currentIndex + 1);
          Some (Some (server.EPath file))
        else Some None
    | None => Some None
    end
  else Some None.

Definition handleDiffView (env : git.Env) (s : JSONStorage) (rawQuery : string)
    (d : disk) : response :=
  let repoPath := param rawQuery "repo" in
  let sourceBranch := param rawQuery "source" in
  let targetBranch := param rawQuery "target" in
  let filePath := param rawQuery "file" in
  if decide (repoPath = "" ∨ sourceBranch = "" ∨ targetBranch = "") then
    Redirect "/" 303
  else
    match GetRepository s repoPath d with
    | inr _ => ErrorPage "Repository Error" 500
    | inl None => ErrorPage "Not Found" 404
    | inl (Some repo) =>
    let repoName := filepath.Base repoPath in
    match git.GetBranchCommitHash env repo sourceBranch with
    | inr _ => ErrorPage "Branch Error" 500
    | inl sourceCommit =>
    match git.GetBranchCommitHash env repo targetBranch with
    | inr _ => ErrorPage "Branch Error" 500
    | inl targetCommit =>
    let reviewState :=
      match LoadReviewState s repoPath sourceBranch targetBranch
              sourceCommit targetCommit d with
      | inl reviewState => reviewState
      | inr _ => emptyState sourceBranch targetBranch sourceCommit targetCommit
      end in
    (* Always get full diff to extract file list (needed for navigation) *)
    let listed : option (option (list server.FileEntry) * string * bool) :=
      match git.GetDiff env repo sourceBranch targetBranch with
      | inr fullDiffErr => Some (None, "Failed to load diff: " +:+ fullDiffErr, false)
      | inl fullDiffText =>
          if decide (fullDiffText = "") then Some (None, "", true)
          else
            files ← server.extractFilesFromDiff fullDiffText reviewState repoPath;
            Some (Some files, "", false)
      end in
    match listed with
    | None => Panicked
    | Some (files, error, noDiff) =>
        let data selected : diffData :=
          {| dRepoPath := repoPath; dRepoName := repoName;
             dSourceBranch := sourceBranch; dTargetBranch := targetBranch;
             dSourceCommit := sourceCommit; dTargetCommit := targetCommit;
             dError := selected.1.1.1.1; dNoDiff := noDiff;
             dReviewState := reviewState; dFiles := files;
             dSelectedFile := selected.1.1.1.2; dDiffLines := selected.1.1.2;
             dFileStatus := selected.1.2; dNextFilePath := selected.2 |} in
        if decide (filePath = "") then DiffPage (data (error, None, None, None, None))
        else
          (* If a specific file is requested, load its diff *)
          match git.GetFileDiff env repo sourceBranch targetBranch filePath with
          | inr err2 =>
              DiffPage (data ("Failed to load diff: " +:+ err2, None, None, None, None))
          | inl diffText =>
              match nextFilePath (default [] files) filePath with
              | None => Panicked
              | Some next =>
                  DiffPage
                    (data (error, Some filePath,
                           Some (strings.Split diffText "010"%char),
                           Some (server.fileStatus reviewState repoPath filePath),
                           next))
              end
          end
    end
    end
    end
    end.

End Server.

(** * Notions of the specification *)

(** ** Decisions and the ledger *)

(** The three Decision literals. *)
Definition isDecision (d : string) : Prop :=
  d = StateApproved ∨ d = StateRejected ∨ d = StateSkipped.

(** Some range entry of the FileReview carries the value [d]. *)
Definition carries (review : FileReview) (d : string) : Prop :=
  ∃ token, Lines review !! token = Some d.

(** The FileReview that the file list reads for a file: the last one of
    the ledger that matches repository and path. *)
Definition reviewOf (ledger : ReviewState) (repo path : string) : option FileReview :=
  last (filter (server.matches path repo) (ReviewedFiles ledger)).

(** The FileReview that recording updates: the first match. *)
Definition found (ledger : ReviewState) (repo path : string) : option FileReview :=
  snd <$> list_find (server.matches path repo) (ReviewedFiles ledger).

(** FileReview entries are unique by (repository, path) within a ledger. *)
Definition uniqueReviews (ledger : ReviewState) : Prop :=
  ∀ i j r r',
    ReviewedFiles ledger !! i = Some r → ReviewedFiles ledger !! j = Some r' →
    Repo r = Repo r' → Path r = Path r' → i = j.


(** What the three flags of [lineFlags] stand for. *)
Definition flagsOf (lines : gmap string string) (flags : bool * bool * bool) : Prop :=
  (flags.1.1 = true ↔ ∃ token, lines !! token = Some StateApproved) ∧
  (flags.1.2 = true ↔ ∃ token, lines !! token = Some StateRejected) ∧
  (flags.2 = true ↔ ∃ token, lines !! token = Some StateSkipped).

(** ** The derived status of a file

    [several review status] says which status a FileReview with more than
    one distinct Decision gets. *)
Definition derivedStatus (several : FileReview → string → Prop)
    (review : option FileReview) (status : string) : Prop :=
  match review with
  | None => status = "unreviewed"
  | Some r =>
      (∀ d, isDecision d → carries r d →
            (∀ d', isDecision d' → carries r d' → d' = d) → status = d) ∧
      ((∃ d d', isDecision d ∧ isDecision d' ∧ d ≠ d' ∧ carries r d ∧ carries r d') →
       several r status)
  end.

Definition statusRule (several : FileReview → string → Prop)
    (diffText : string) (ledger : ReviewState) (repo : string) : Prop :=
  ∃ files,
    server.extractFilesFromDiff diffText ledger repo = Some files ∧
    ∀ e, e ∈ files →
      derivedStatus several (reviewOf ledger repo (server.EPath e)) (server.EStatus e).

(** The reading under which several Decisions give ["mixed"]. *)
Definition mixed (review : FileReview) (status : string) : Prop :=
  status = "mixed".

(** The reading of [extractFilesFromDiff]: a rejected entry outranks an
    approved one, which outranks a skipped one. *)
Definition outranking (review : FileReview) (status : string) : Prop :=
  (carries review StateRejected ∧ status = StateRejected) ∨
  (¬ carries review StateRejected ∧ status = StateApproved).

(** ** The order of the file list *)

Definition statusOrder : list string :=
  ["unreviewed"; "skipped"; "rejected"; "approved"].

Definition knownStatus (s : string) : Prop := s ∈ statusOrder.

Definition pathLe (a b : string) : Prop := String.leb a b = true.

(** [a] is displayed no later than [b]: its status comes earlier in
    [statusOrder], or the statuses agree and its path is not greater. *)
Definition displayedBefore (a b : server.FileEntry) : Prop :=
  ∃ i j, statusOrder !! i = Some (server.EStatus a) ∧
         statusOrder !! j = Some (server.EStatus b) ∧
         (i < j ∨ (i = j ∧ pathLe (server.EPath a) (server.EPath b))).

(** ** Headers of a diff *)

Fixpoint contains (s : string) (c : ascii) : Prop :=
  match s with
  | EmptyString => False
  | String c' s' => c' = c ∨ contains s' c
  end.

(** [pieces] are the parts of [s] between the occurrences of [sep]. *)
Definition separated (sep : ascii) (s : string) (pieces : list string) : Prop :=
  strings.Join pieces (String sep EmptyString) = s ∧
  Forall (λ piece, ¬ contains piece sep) pieces ∧
  pieces ≠ [].

Definition isHeader (line : string) : Prop :=
  ∃ rest, line = "diff --git " +:+ rest.

(** A well-formed header: at least four space-separated tokens, the
    fourth being the marker ["b/"] followed by [path]. *)
Definition wellFormed (line path : string) : Prop :=
  isHeader line ∧
  ∃ tokens t0 t1 t2 more,
    separated " " line tokens ∧
    tokens = t0 :: t1 :: t2 :: ("b/" +:+ path) :: more.

(** A malformed header: fewer than four tokens, or a fourth token
    that does not begin with the marker. *)
Definition malformed (line : string) : Prop :=
  isHeader line ∧
  ∃ tokens,
    separated " " line tokens ∧
    (length tokens < 4 ∨
     ∃ t3, tokens !! 3 = Some t3 ∧ ∀ path, t3 ≠ "b/" +:+ path).

(** The paths of the well-formed headers among [lines], in order. *)
Inductive Parsed : list string → list string → Prop :=
| Parsed_nil : Parsed [] []
| Parsed_emit line path lines paths :
    wellFormed line path → Parsed lines paths →
    Parsed (line :: lines) (path :: paths)
| Parsed_skip line lines paths :
    (∀ path, ¬ wellFormed line path) → Parsed lines paths →
    Parsed (line :: lines) paths.

(** What [headerPath] returns when it does not panic. *)
Definition emitted (line : string) : option string :=
  if strings.HasPrefix line "diff --git " then
    match strings.Split line " "%char !! 3 with
    | Some bPath =>
        if strings.HasPrefix bPath "b/" then strings.slice_from bPath 2 else None
    | None => None
    end
  else None.

Definition entryOf (statusMap : gmap string string) (filePath : string)
    : server.FileEntry :=
  {| server.EPath := filePath;
     server.EStatus := default "unreviewed" (statusMap !! filePath) |}.

(** ** Storage locations *)

(** The repository identifier with every separator and colon replaced
    by an underscore. *)
Fixpoint underscored (repo : string) : string :=
  match repo with
  | EmptyString => EmptyString
  | String c repo' =>
      String (if decide (c = "/"%char ∨ c = ":"%char) then "_"%char else c)
             (underscored repo')
  end.

(** An element that [Clean] keeps. *)
Definition kept (elem : string) : Prop :=
  elem ≠ "" ∧ elem ≠ "." ∧ ¬ contains elem "/".

(** A path segment proper: kept by [Clean] and not [".."]. *)
Definition segment (elem : string) : Prop := kept elem ∧ elem ≠ "..".

(** A stack of elements that [Clean] leaves as it is. *)
Definition settled (rooted : bool) (out : list string) : Prop :=
  foldl (filepath.cleanStep rooted) [] (reverse out) = out ∧ Forall kept out.

Definition rendered (rooted : bool) (out : list string) : string :=
  let body := strings.Join (reverse out) "/" in
  if rooted then "/" +:+ body else if decide (body = "") then "." else body.

(** ** Ledgers with a value outside the closed set *)



(** ** Sample data *)

Definition nl : string := String "010" EmptyString.

Definition sampleStorage : storage.JSONStorage :=
  {| storage.baseStoragePath := "/home/dev/.diffty";
     storage.reposPath := "/home/dev/.diffty/repositories.json" |}.

Definition sampleDiff : string :=
  "diff --git a/b.txt b/b.txt" +:+ nl +:+
  "index 83db48f..bf269f4 100644" +:+ nl +:+
  "diff --git a/a.txt b/a.txt" +:+ nl +:+
  "diff --git a/c.txt b/c.txt" +:+ nl +:+
  "diff --git a/only-three" +:+ nl +:+
  "diff --git a/my file b/my file" +:+ nl.

Definition ledgerOf (files : list FileReview) : ReviewState :=
  {| ReviewedFiles := files;
     SourceBranch := "feature"; TargetBranch := "main";
     SourceCommit := "abc123"; TargetCommit := "def456" |}.

Definition sampleLedger : ReviewState :=
  ledgerOf [ {| Repo := "/repo"; Path := "b.txt"; Lines := {["all" := "approved"]} |};
             {| Repo := "/repo"; Path := "c.txt"; Lines := {["all" := "skipped"]} |} ].

(** One file with an approved line and a rejected line. *)
Definition twoDecisions : FileReview :=
  {| Repo := "/repo"; Path := "a.txt";
     Lines := {["1" := "approved"; "2" := "rejected"]} |}.


Definition unpinnedLedger : ReviewState :=
  {| ReviewedFiles := []; SourceBranch := "feature"; TargetBranch := "main";
     SourceCommit := ""; TargetCommit := "def456" |}.

Definition sampleLocation : string :=
  "/home/dev/.diffty/_repo/abc123/def456/review-state.json".

(** The file tree holding, at [sampleLocation], the document written
    for [ledger]. *)
Definition diskWith (ledger : ReviewState) : storage.disk :=
  {[ sampleLocation := storage.Document (json.Marshal ledger) ]}.

(** ** Ledgers on the file tree *)

(** Every range entry of the ledger carries a Decision. *)
Definition validLedger (ledger : ReviewState) : Prop :=
  ∀ review d, review ∈ ReviewedFiles ledger → carries review d → isDecision d.


(** The key of a ledger, as far as its location tells keys apart. *)
Definition keyOf (repo sourceCommit targetCommit : string) : string * string * string :=
  (underscored repo, sourceCommit, targetCommit).

(** ** Sample system *)

(** A system in which /repo is a git repository with two changed
    files, and the hash of a branch is its name followed by ["-hash"]. *)
Definition sampleEnv : git.Env :=
  {| git.Getwd := Some "/work";
     git.Stat := λ name, bool_decide (name = "/repo/.git");
     git.Run := λ args,
       match args !! 3 with
       | Some "rev-parse" => inl (default "" (args !! 4) +:+ "-hash" +:+ nl)
       | Some "diff" =>
           if decide (length args = 7)
           then inl ("diff --git a/b.txt b/b.txt" +:+ nl +:+
                     "diff --git a/a.txt b/a.txt" +:+ nl)
           else inl ("diff --git a/a.txt b/a.txt" +:+ nl +:+ "+added" +:+ nl)
       | _ => inr "exit status 128"
       end |}.

(** The entries of the ledger that belong to [repo]. *)
Definition ownEntries (repo : string) (ledger : ReviewState) : ReviewState :=
  json.withFiles ledger (filter (λ review, Repo review = repo) (ReviewedFiles ledger)).

(** A ledger as recording leaves it: one FileReview for each file, each
    holding one Decision, under the token ["all"]. *)
Definition wellKept (ledger : ReviewState) : Prop :=
  uniqueReviews ledger ∧
  ∀ review, review ∈ ReviewedFiles ledger →
    ∃ d, isDecision d ∧ Lines review = {["all" := d]}.

(** A request that records approved for b.txt, and names the next
    file. *)
Definition sampleRequest : string :=
  "repo=%2Frepo&source=feature&target=main&source_commit=abc123" +:+
  "&target_commit=def456&file=b.txt&status=approved&next=c+d.txt".

(** A file tree on which /repo is registered and the ledger of the
    sample branches cannot be read. *)
Definition brokenDisk : storage.disk :=
  {[ "/home/dev/.diffty/repositories.json" :=
       storage.Document (json.marshalRepositories ["/repo"]);
     "/home/dev/.diffty/_repo/feature-hash/main-hash/review-state.json" :=
       storage.Garbage "{" ]}.

(** ** Queries *)

(** What [QueryEscape] writes for one byte. *)
Definition escapeByte (c : ascii) : string := url.QueryEscape (String c EmptyString).

(** A key that a query carries unchanged. *)
Definition plainKey (key : string) : Prop :=
  key ≠ "" ∧ strings.ContainsByte key ";" = false ∧
  strings.ContainsByte key "=" = false ∧ ¬ contains key "&" ∧
  url.QueryUnescape key = Some key.

(** The text of a key and its value in a query. *)
Definition pairText (kv : string * string) : string :=
  kv.1 +:+ "=" +:+ url.QueryEscape kv.2.

Definition addPair (m : gmap string (list string)) (kv : string * string)
    : gmap string (list string) :=
  <[kv.1 := default [] (m !! kv.1) ++ [kv.2]]> m.

(** All bytes of the text are ASCII white space. *)
Fixpoint blank (s : string) : Prop :=
  match s with
  | EmptyString => True
  | String c s' => strings.asciiSpace c = true ∧ blank s'
  end.

(** * Go strings *)

Section go_strings.
Import strings.

Lemma app_cons c s1 s2 : String c s1 +:+ s2 = String c (s1 +:+ s2).
Proof. reflexivity. Qed.

Lemma app_empty s : "" +:+ s = s.
Proof. reflexivity. Qed.

Lemma HasPrefix_app s p : HasPrefix s p = true ↔ ∃ rest, s = p +:+ rest.
Proof.
  revert s. induction p as [|c p IH]; intros s; simpl.
  - split; [by exists s|done].
  - destruct s as [|c' s]; [split; [done|by intros [? [=]]]|]. setoid_rewrite app_cons.
    destruct (Ascii.eqb_spec c' c) as [->|Hne].
    + rewrite IH. split; intros [rest E]; exists rest; rewrite ?app_cons in *; congruence.
    + split; [done|]. intros [rest [= ? ?]]. done.
Qed.

Lemma slice_from_app p rest : slice_from (p +:+ rest) (String.length p) = Some rest.
Proof. induction p; rewrite ?app_cons, ?app_empty; simpl; auto. Qed.

Lemma slice_from_marker rest : slice_from ("b/" +:+ rest) 2 = Some rest.
Proof. reflexivity. Qed.

Lemma HasPrefix_marker rest : HasPrefix ("b/" +:+ rest) "b/" = true.
Proof. reflexivity. Qed.

Lemma Split_nonempty s sep : Split s sep ≠ [].
Proof. destruct s as [|c s]; simpl; [done|]. destruct (Ascii.eqb c sep); [done|]. by destruct (Split s sep). Qed.

Lemma Split_Join s sep : Join (Split s sep) (String sep EmptyString) = s.
Proof.
  induction s as [|c s IH]; simpl; [done|].
  destruct (Ascii.eqb_spec c sep) as [->|Hne].
  - pose proof (Split_nonempty s sep).
    destruct (Split s sep) as [|piece pieces] eqn:E; [done|].
    change (Join (EmptyString :: piece :: pieces) (String sep EmptyString))
      with (String sep (Join (piece :: pieces) (String sep EmptyString))).
    by rewrite IH.
  - pose proof (Split_nonempty s sep).
    destruct (Split s sep) as [|piece pieces] eqn:E; [done|].
    destruct pieces as [|piece' pieces]; simpl in *; by rewrite <-IH.
Qed.

Lemma Split_pieces s sep : Forall (λ piece, ¬ contains piece sep) (Split s sep).
Proof.
  induction s as [|c s IH]; simpl.
  { apply Forall_singleton. simpl. tauto. }
  destruct (Ascii.eqb_spec c sep) as [->|Hne].
  - apply Forall_cons. split; [simpl; tauto|done].
  - destruct (Split s sep) as [|piece pieces].
    + apply Forall_singleton. simpl. tauto.
    + apply Forall_cons in IH as [??]. apply Forall_cons. split; [|done]. simpl. tauto.
Qed.

Lemma Split_separated s sep : separated sep s (Split s sep).
Proof. split_and!; [apply Split_Join|apply Split_pieces|apply Split_nonempty]. Qed.

Lemma separated_Split sep s pieces : separated sep s pieces → Split s sep = pieces.
Proof.
  intros (HJ & Hp & Hne). subst s. induction pieces as [|piece pieces IH]; [done|].
  clear Hne. inversion_clear Hp as [|?? Hpiece Hrest].
  destruct pieces as [|piece' pieces].
  - clear IH Hrest. simpl. induction piece as [|c piece IH]; simpl; [done|].
    simpl in Hpiece. destruct (Ascii.eqb_spec c sep) as [->|Hne]; [tauto|].
    rewrite IH by tauto. done.
  - specialize (IH Hrest ltac:(done)).
    change (Join (piece :: piece' :: pieces) (String sep EmptyString))
      with (piece +:+ String sep (Join (piece' :: pieces) (String sep EmptyString))).
    revert IH. generalize (Join (piece' :: pieces) (String sep EmptyString)) as tail.
    intros tail IH. induction piece as [|c piece IHp]; simpl.
    + rewrite Ascii.eqb_refl. by rewrite IH.
    + simpl in Hpiece. destruct (Ascii.eqb_spec c sep) as [->|Hne]; [tauto|].
      rewrite IHp by tauto. done.
Qed.

End go_strings.

(** * The order of strings *)

Section string_order.

Lemma ascii_compare_lt_trans a b c :
  Ascii.compare a b = Lt → Ascii.compare b c = Lt → Ascii.compare a c = Lt.
Proof.
  unfold Ascii.compare. rewrite !N.compare_lt_iff. lia.
Qed.

Lemma compare_lt_trans s1 s2 s3 :
  String.compare s1 s2 = Lt → String.compare s2 s3 = Lt →
  String.compare s1 s3 = Lt.
Proof.
  revert s2 s3. induction s1 as [|a s1 IH]; intros [|b s2] [|c s3]; simpl; try done.
  destruct (Ascii.compare a b) eqn:Hab; try done;
    destruct (Ascii.compare b c) eqn:Hbc; try done.
  - apply Ascii.compare_eq_iff in Hab as ->. rewrite Hbc. apply IH.
  - apply Ascii.compare_eq_iff in Hab as ->. by rewrite Hbc.
  - apply Ascii.compare_eq_iff in Hbc as ->. by rewrite Hab.
  - by rewrite (ascii_compare_lt_trans a b c).
Qed.

Lemma compare_refl s : String.compare s s = Eq.
Proof.
  induction s as [|a s IH]; simpl; [done|].
  unfold Ascii.compare. by rewrite N.compare_refl.
Qed.

Lemma ltb_lt a b : String.ltb a b = true ↔ String.compare a b = Lt.
Proof. unfold String.ltb. destruct (String.compare a b); naive_solver. Qed.

Lemma ltb_false_leb a b : String.ltb b a = false ↔ String.leb a b = true.
Proof.
  unfold String.ltb, String.leb. rewrite (String.compare_antisym a b).
  destruct (String.compare b a); naive_solver.
Qed.

Lemma leb_trans a b c :
  String.leb a b = true → String.leb b c = true → String.leb a c = true.
Proof.
  unfold String.leb. intros Hab Hbc.
  destruct (String.compare a b) eqn:E1; [| |done].
  - by apply String.compare_eq_iff in E1 as ->.
  - destruct (String.compare b c) eqn:E2; [| |done].
    + apply String.compare_eq_iff in E2 as <-. by rewrite E1.
    + by rewrite (compare_lt_trans a b c).
Qed.

End string_order.

(** * The comparison of [sort.Slice] *)

Section ordering.
Import server.

Lemma notAfter_iff a b :
  notAfter a b ↔
    priority (EStatus a) < priority (EStatus b) ∨
    (priority (EStatus a) = priority (EStatus b) ∧ pathLe (EPath a) (EPath b)).
Proof.
  unfold notAfter, less, strings.lt, pathLe. rewrite <-ltb_false_leb.
  case_decide as Hp.
  - rewrite bool_decide_eq_false. lia.
  - split; [intros; right; split; [lia|done]|].
    intros [?|[_ ?]]; [lia|done].
Qed.

#[local] Instance notAfter_total : Total notAfter.
Proof.
  intros a b. rewrite !notAfter_iff. unfold pathLe.
  destruct (String.leb_total (EPath a) (EPath b)); 
    destruct (lt_eq_lt_dec (priority (EStatus a)) (priority (EStatus b))) as [[?|?]|?];
    auto with lia.
Qed.

#[local] Instance notAfter_trans : Transitive notAfter.
Proof.
  intros a b c. rewrite !notAfter_iff. unfold pathLe.
  intros [?|[? ?]] [?|[? ?]]; auto with lia.
  right. split; [lia|]. by eapply leb_trans.
Qed.

Lemma sort_Slice_sorted files : StronglySorted notAfter (sort_Slice files).
Proof. apply (StronglySorted_merge_sort _). Qed.

Lemma sort_Slice_perm files : sort_Slice files ≡ₚ files.
Proof. apply merge_sort_Permutation. Qed.

Lemma priority_index s :
  knownStatus s → statusOrder !! priority s = Some s.
Proof.
  unfold knownStatus, statusOrder. rewrite !elem_of_cons, elem_of_nil.
  intros [->|[->|[->|[->|[]]]]]; by vm_compute.
Qed.

Lemma index_priority i s : statusOrder !! i = Some s → priority s = i.
Proof.
  destruct i as [|[|[|[|i]]]]; simpl; intros [= <-]; by vm_compute.
Qed.

Lemma index_known i s : statusOrder !! i = Some s → knownStatus s.
Proof. intros H. unfold knownStatus. eapply list_elem_of_lookup_2, H. Qed.

Lemma notAfter_displayedBefore a b :
  knownStatus (EStatus a) → knownStatus (EStatus b) →
  notAfter a b ↔ displayedBefore a b.
Proof.
  intros Ha Hb. rewrite notAfter_iff. unfold displayedBefore. split.
  - intros H. exists (priority (EStatus a)), (priority (EStatus b)).
    rewrite !priority_index by done. naive_solver.
  - intros (i & j & Hi & Hj & H).
    apply index_priority in Hi, Hj. naive_solver.
Qed.

(** Two entries with known statuses that may stand in either order are equal. *)
Lemma notAfter_antisym a b :
  knownStatus (EStatus a) → knownStatus (EStatus b) →
  notAfter a b → notAfter b a → a = b.
Proof.
  intros Ha Hb. rewrite !notAfter_iff. unfold pathLe.
  intros [?|[Hp H1]] [?|[Hp' H2]]; try lia.
  destruct a as [pa sa], b as [pb sb]; simpl in *.
  f_equal; [by apply String.leb_antisym|].
  apply priority_index in Ha, Hb. rewrite Hp in Ha. congruence.
Qed.

Lemma sort_Slice_unique files sorted :
  Forall (λ e, knownStatus (EStatus e)) files →
  sorted ≡ₚ files → Sorted notAfter sorted → sorted = sort_Slice files.
Proof.
  intros Hk Hp Hs. apply (Sorted_unique_strong notAfter).
  - intros x1 x2 H1 H2. rewrite Forall_forall in Hk.
    apply notAfter_antisym; apply Hk.
    + by rewrite <-Hp.
    + by rewrite <-(sort_Slice_perm files).
  - done.
  - apply Sorted_merge_sort, _.
  - by rewrite sort_Slice_perm.
Qed.
End ordering.

(** * Headers and the loop over the lines *)

Section parsing.
Import server.

Lemma headerPath_emitted line : headerPath line = Some (emitted line).
Proof.
  unfold headerPath, emitted.
  destruct (strings.HasPrefix line "diff --git "); [|done].
  case_decide as Hlen.
  - destruct (lookup_lt_is_Some_2 (strings.Split line " ") 3 ltac:(lia)) as [bPath ->].
    unfold mbind, option_bind; cbv beta iota.
    destruct (strings.HasPrefix bPath "b/") eqn:Hb; [|done].
    apply HasPrefix_app in Hb as [rest ->].
    by rewrite slice_from_marker.
  - rewrite lookup_ge_None_2 by lia. done.
Qed.

Lemma emitted_wellFormed line path : emitted line = Some path ↔ wellFormed line path.
Proof.
  unfold emitted, wellFormed. split.
  - destruct (strings.HasPrefix line "diff --git ") eqn:Hp; [|done].
    apply HasPrefix_app in Hp. intros H. split; [done|].
    destruct (strings.Split line " " !! 3) as [bPath|] eqn:E3; [|done].
    destruct (strings.HasPrefix bPath "b/") eqn:Hb; [|done].
    apply HasPrefix_app in Hb as [rest ->].
    rewrite slice_from_marker in H. injection H as ->.
    pose proof (Split_separated line " ") as Hsep.
    destruct (strings.Split line " ") as [|t0 [|t1 [|t2 [|t3 more]]]] eqn:E; try done.
    injection E3 as ->. by exists (t0 :: t1 :: t2 :: ("b/" +:+ path) :: more), t0, t1, t2, more.
  - intros [Hp (tokens & t0 & t1 & t2 & more & Hsep & ->)].
    apply HasPrefix_app in Hp as ->.
    apply separated_Split in Hsep as ->. reflexivity.
Qed.

Lemma emitted_None line : emitted line = None ↔ ∀ path, ¬ wellFormed line path.
Proof.
  split.
  - intros H path Hw. apply emitted_wellFormed in Hw. congruence.
  - intros H. destruct (emitted line) as [path|] eqn:E; [|done].
    apply emitted_wellFormed in E. by destruct (H path).
Qed.

Lemma extractLoop_eq statusMap lines files :
  extractLoop statusMap lines files
  = Some (files ++ (entryOf statusMap <$> omap emitted lines)).
Proof.
  revert files. induction lines as [|line lines IH]; intros files; simpl.
  - by rewrite app_nil_r.
  - rewrite headerPath_emitted. simpl. destruct (emitted line) as [path|]; simpl.
    + rewrite IH. by rewrite <-app_assoc.
    + apply IH.
Qed.

Lemma extractFilesFromDiff_eq diffText reviewState repoPath :
  extractFilesFromDiff diffText reviewState repoPath
  = Some (sort_Slice (entryOf (fileStatusMap reviewState repoPath)
                        <$> omap emitted (strings.Split diffText "010"))).
Proof. unfold extractFilesFromDiff. by rewrite extractLoop_eq. Qed.

Lemma Parsed_emitted lines : Parsed lines (omap emitted lines).
Proof.
  induction lines as [|line lines IH]; simpl; [constructor|].
  destruct (emitted line) as [path|] eqn:E.
  - constructor; [by apply emitted_wellFormed|done].
  - constructor; [by apply emitted_None|done].
Qed.

Lemma Parsed_unique lines paths : Parsed lines paths → paths = omap emitted lines.
Proof.
  induction 1 as [|line path lines paths Hw _ IH|line lines paths Hw _ IH]; simpl.
  - done.
  - apply emitted_wellFormed in Hw as ->. by rewrite IH.
  - apply emitted_None in Hw as ->. done.
Qed.

End parsing.

(** * The status of a FileReview *)

Section status.
Import server.

Lemma insert_carries (lines : gmap string string) token status d :
  lines !! token = None →
  (∃ t, <[token := status]> lines !! t = Some d) ↔
  status = d ∨ ∃ t, lines !! t = Some d.
Proof.
  intros Hfresh. split.
  - intros [t Ht]. destruct (decide (token = t)) as [->|Hne].
    + rewrite lookup_insert_eq in Ht. left. congruence.
    + rewrite lookup_insert_ne in Ht by done. eauto.
  - intros [->|[t Ht]].
    + exists token. apply lookup_insert_eq.
    + exists t. rewrite lookup_insert_ne; [done|]. congruence.
Qed.

Lemma lineFlags_spec lines : flagsOf lines (lineFlags lines).
Proof.
  unfold lineFlags. apply (map_fold_weak_ind (λ flags m, flagsOf m flags)).
  - unfold flagsOf. simpl. setoid_rewrite lookup_empty.
    split_and!; (split; [done|by intros [? ?]]).
  - intros token status m [[a r] s] Hfresh (Ha & Hr & Hs). unfold flagsOf in *.
    simpl in Ha, Hr, Hs.
    rewrite !(insert_carries m token status) by done.
    unfold StateApproved, StateRejected, StateSkipped in *.
    repeat case_decide; subst; simpl; rewrite ?Ha, ?Hr, ?Hs;
      intuition (try congruence; try discriminate).
Qed.

Lemma reviewStatus_rejected review :
  carries review StateRejected → reviewStatus review = StateRejected.
Proof.
  intros H. unfold reviewStatus. destruct (lineFlags_spec (Lines review)) as (_ & Hr & _).
  destruct (lineFlags (Lines review)) as [[a r] s]. simpl in Hr.
  apply Hr in H as ->. done.
Qed.

Lemma reviewStatus_approved review :
  ¬ carries review StateRejected → carries review StateApproved →
  reviewStatus review = StateApproved.
Proof.
  intros Hn H. unfold reviewStatus.
  destruct (lineFlags_spec (Lines review)) as (Ha & Hr & _).
  destruct (lineFlags (Lines review)) as [[a r] s]. simpl in Ha, Hr.
  apply Ha in H as ->. destruct r; [|done]. destruct Hn. by apply Hr.
Qed.

Lemma reviewStatus_skipped review :
  ¬ carries review StateRejected → ¬ carries review StateApproved →
  carries review StateSkipped → reviewStatus review = StateSkipped.
Proof.
  intros Hnr Hna H. unfold reviewStatus.
  destruct (lineFlags_spec (Lines review)) as (Ha & Hr & Hs).
  destruct (lineFlags (Lines review)) as [[a r] s]. simpl in Ha, Hr, Hs.
  apply Hs in H as ->.
  destruct r; [destruct Hnr; by apply Hr|]. destruct a; [destruct Hna; by apply Ha|]. done.
Qed.


Lemma fileStatusMap_lookup ledger repo path :
  fileStatusMap ledger repo !! path = reviewStatus <$> reviewOf ledger repo path.
Proof.
  unfold fileStatusMap, reviewOf.
  assert (∀ files (m : gmap string string),
    foldl (λ m review, if decide (Repo review ≠ repo) then m
                       else <[Path review := reviewStatus review]> m) m files !! path
    = match last (filter (matches path repo) files) with
      | Some review => Some (reviewStatus review)
      | None => m !! path
      end) as Hgen.
  { induction files as [|r files IH]; intros m; simpl; [done|].
    rewrite IH. rewrite filter_cons. unfold matches at 2.
    case_decide as Hrepo; case_decide as Hm.
    - by destruct Hm.
    - done.
    - rewrite last_cons. destruct (last (filter (matches path repo) files)); [done|].
      destruct Hm as [-> _]. by rewrite lookup_insert_eq.
    - destruct (last (filter (matches path repo) files)); [done|].
      rewrite lookup_insert_ne; [done|]. intros ?. apply Hm. split; [done|].
      done. }
  rewrite Hgen. destruct (last _); [done|]. by rewrite lookup_empty.
Qed.

End status.

(** * Recording *)

Section recording.
Import server.

Lemma matches_setAll path repo status review :
  matches path repo (setAll status review) ↔ matches path repo review.
Proof. done. Qed.

Lemma record_found ledger repo path status :
  ∃ review, found (record ledger repo path status) repo path = Some review ∧
            Lines review !! "all" = Some status ∧
            (∀ token, token ≠ "all" →
               Lines review !! token = (found ledger repo path ≫= λ r, Lines r !! token)).
Proof.
  unfold found, record. simpl.
  destruct (list_find (matches path repo) (ReviewedFiles ledger)) as [[i review]|] eqn:E.
  - exists (setAll status review). apply list_find_Some in E as (Hi & Hm & Hbefore).
    split_and!.
    + apply fmap_Some. exists (i, setAll status review). split; [|done].
      apply list_find_Some. split_and!.
      * apply list_lookup_insert_eq. by eapply lookup_lt_Some.
      * done.
      * intros j y Hj Hlt. rewrite list_lookup_insert_ne in Hj by lia. by eapply Hbefore.
    + apply lookup_insert_eq.
    + intros token Hne. simpl. by rewrite lookup_insert_ne.
  - set (new := {| Repo := repo; Path := path; Lines := {["all" := status]} |}).
    exists new. apply list_find_None in E. split_and!.
    + apply fmap_Some. exists (length (ReviewedFiles ledger), new). split; [|done].
      apply list_find_Some. split_and!.
      * by apply list_lookup_middle.
      * done.
      * intros j y Hj Hlt. rewrite lookup_app_l in Hj by done.
        rewrite Forall_forall in E. eapply E, list_elem_of_lookup_2, Hj.
    + apply lookup_singleton_eq.
    + intros token Hne. simpl. by rewrite lookup_singleton_ne.
Qed.


Lemma record_unique ledger repo path status :
  uniqueReviews ledger → uniqueReviews (record ledger repo path status).
Proof.
  unfold uniqueReviews, record. simpl. intros Hu.
  destruct (list_find (matches path repo) (ReviewedFiles ledger)) as [[k review]|] eqn:E.
  - apply list_find_Some in E as (Hk & Hm & _).
    assert (∀ i r, <[k:=setAll status review]> (ReviewedFiles ledger) !! i = Some r →
              ∃ r0, ReviewedFiles ledger !! i = Some r0 ∧ Repo r0 = Repo r ∧ Path r0 = Path r)
      as Hold.
    { intros i r Hi. destruct (decide (k = i)) as [->|Hne].
      - rewrite list_lookup_insert_eq in Hi by (by eapply lookup_lt_Some).
        injection Hi as <-. eauto.
      - rewrite list_lookup_insert_ne in Hi by done. eauto. }
    intros i j r r' Hi Hj Hrepo Hpath.
    apply Hold in Hi as (r0 & Hi & Hr1 & Hp1). apply Hold in Hj as (r0' & Hj & Hr2 & Hp2).
    eapply Hu; [done|done|congruence|congruence].
  - apply list_find_None in E. rewrite Forall_forall in E.
    intros i j r r' Hi Hj Hrepo Hpath.
    apply lookup_app_Some in Hi as [Hi|[Hge Hi]];
      apply lookup_app_Some in Hj as [Hj|[Hge' Hj]].
    + by eapply Hu.
    + apply list_lookup_singleton_Some in Hj as [_ <-]. simpl in *.
      destruct (E r); [by eapply list_elem_of_lookup_2|done].
    + apply list_lookup_singleton_Some in Hi as [_ <-]. simpl in *.
      destruct (E r'); [by eapply list_elem_of_lookup_2|done].
    + apply list_lookup_singleton_Some in Hi as [? _].
      apply list_lookup_singleton_Some in Hj as [? _]. lia.
Qed.

(** In a ledger with one FileReview for each file, the first match is
    the last match. *)
Lemma unique_reviewOf ledger repo path :
  uniqueReviews ledger → reviewOf ledger repo path = found ledger repo path.
Proof.
  unfold uniqueReviews, reviewOf, found. generalize (ReviewedFiles ledger) as files.
  intros files Hu.
  destruct (list_find (matches path repo) files) as [[i review]|] eqn:E; simpl.
  - apply list_find_Some in E as (Hi & Hm & Hbefore).
    destruct (last (filter (matches path repo) files)) as [review'|] eqn:EL.
    + pose proof (last_Some_elem_of _ _ EL) as Hin.
      apply list_elem_of_filter in Hin as [Hm' Hin].
      apply list_elem_of_lookup in Hin as [j Hj].
      destruct Hm as [Hp Hr], Hm' as [Hp' Hr'].
      assert (i = j) as -> by (eapply Hu; [done..|congruence|congruence]).
      congruence.
    + apply last_None in EL.
      destruct (filter_nil_not_elem_of _ _ review EL Hm).
      by eapply list_elem_of_lookup_2.
  - apply list_find_None in E. apply last_None.
    rewrite Forall_forall in E. destruct (filter (matches path repo) files) as [|x l] eqn:EF; [done|].
    assert (x ∈ filter (matches path repo) files) as Hin by (rewrite EF; left).
    apply list_elem_of_filter in Hin as [Hm Hin]. by destruct (E x).
Qed.

End recording.

(** * Documents *)

Section json_roundtrip.
Import json.






End json_roundtrip.

(** * Paths *)

Section paths.
Import strings.

Lemma app_assoc s1 s2 s3 : (s1 +:+ s2) +:+ s3 = s1 +:+ s2 +:+ s3.
Proof. induction s1 as [|c s1 IH]; [done|]. by rewrite !app_cons, IH. Qed.

Lemma app_empty_r s : s +:+ "" = s.
Proof. induction s as [|c s IH]; [done|]. by rewrite app_cons, IH. Qed.

Lemma app_eq_empty s1 s2 : s1 +:+ s2 = "" → s1 = "".
Proof. by destruct s1. Qed.

Lemma Join_cons e rest sep :
  rest ≠ [] → Join (e :: rest) sep = e +:+ sep +:+ Join rest sep.
Proof. by destruct rest. Qed.

Lemma Join_app l1 l2 sep :
  l1 ≠ [] → l2 ≠ [] → Join (l1 ++ l2) sep = Join l1 sep +:+ sep +:+ Join l2 sep.
Proof.
  intros H1 H2. induction l1 as [|e l1 IH]; [done|]. clear H1.
  destruct l1 as [|e' l1].
  - simpl (_ ++ _). by rewrite Join_cons.
  - rewrite <-app_comm_cons, !Join_cons by done. rewrite IH by done.
    by rewrite !app_assoc.
Qed.

Lemma Split_app s1 s2 sep :
  Split (s1 +:+ String sep s2) sep = Split s1 sep ++ Split s2 sep.
Proof.
  apply separated_Split.
  destruct (Split_separated s1 sep) as (J1 & P1 & N1).
  destruct (Split_separated s2 sep) as (J2 & P2 & N2).
  split_and!.
  - rewrite Join_app by done. by rewrite J1, J2.
  - by apply Forall_app.
  - by destruct (Split s1 sep).
Qed.

Lemma Split_kept sep s : ¬ contains s sep → Split s sep = [s].
Proof.
  intros H. apply separated_Split. split_and!; [done| |done].
  by apply Forall_singleton.
Qed.

Lemma safeRepoPath_underscored repo : storage.safeRepoPath repo = underscored repo.
Proof.
  unfold storage.safeRepoPath. induction repo as [|c repo IH]; [done|]. simpl.
  destruct (Ascii.eqb_spec c "/") as [->|H1].
  - rewrite app_cons, app_empty. simpl. by rewrite IH.
  - simpl. destruct (Ascii.eqb_spec c ":") as [->|H2].
    + rewrite app_cons, app_empty. by rewrite IH.
    + rewrite IH. case_decide as H; [by destruct H|done].
Qed.

(** *** [filepath.Clean] on a path that [filepath.Clean] produced *)

Lemma cleanStep_kept rooted out elem :
  elem ≠ ".." → kept elem → filepath.cleanStep rooted out elem = elem :: out.
Proof. intros ? (? & ? & _). unfold filepath.cleanStep. by repeat case_decide. Qed.

Lemma settled_nil rooted : settled rooted [].
Proof. by split. Qed.

Lemma settled_step rooted out elem :
  ¬ contains elem "/" → settled rooted out → settled rooted (filepath.cleanStep rooted out elem).
Proof.
  intros Hsep [Hst Hk]. unfold filepath.cleanStep.
  case_decide as H1; [done|]. case_decide as H2; [done|].
  assert (kept elem) as Hkept by done.
  case_decide as H3.
  - subst elem. destruct out as [|top out'].
    + destruct rooted; [done|]. split; [done|by apply Forall_singleton].
    + case_decide as Htop.
      * split; [|by apply Forall_cons]. rewrite reverse_cons, foldl_snoc, Hst.
        unfold filepath.cleanStep. simpl. by rewrite decide_True.
      * apply Forall_cons in Hk as [Hktop Hk]. split; [|done].
        rewrite reverse_cons, foldl_snoc in Hst.
        rewrite cleanStep_kept in Hst by done. congruence.
  - split; [|by apply Forall_cons]. rewrite reverse_cons, foldl_snoc, Hst.
    by apply cleanStep_kept.
Qed.

Lemma settled_foldl rooted elems out :
  Forall (λ e, ¬ contains e "/") elems → settled rooted out →
  settled rooted (foldl (filepath.cleanStep rooted) out elems).
Proof.
  intros H. revert out. induction H as [|e elems He _ IH]; intros out Hout; simpl; [done|].
  by apply IH, settled_step.
Qed.

Lemma Join_kept_empty out : Forall kept out → Join out "/" = "" → out = [].
Proof.
  intros Hk HJ. destruct out as [|e out]; [done|].
  apply Forall_cons in Hk as [(Hne & _) _]. destruct out.
  - done.
  - rewrite Join_cons in HJ by done. by apply app_eq_empty in HJ.
Qed.

Lemma Join_kept_rooted out :
  Forall kept out → HasPrefix (Join out "/") "/" = false.
Proof.
  intros Hk. destruct out as [|e out]; [done|].
  apply Forall_cons in Hk as [(Hne & _ & Hsep) _].
  assert (∀ tail, HasPrefix (e +:+ tail) "/" = false) as He.
  { intros tail. destruct e as [|c e]; [done|]. rewrite app_cons. simpl in *.
    destruct (Ascii.eqb_spec c "/"); [tauto|done]. }
  destruct out; [|by rewrite Join_cons]. simpl. rewrite <-(app_empty_r e). apply He.
Qed.

Lemma Clean_rendered path :
  path ≠ "" →
  filepath.Clean path = rendered (HasPrefix path "/")
                 (foldl (filepath.cleanStep (HasPrefix path "/")) [] (Split path "/")).
Proof. intros H. unfold filepath.Clean. by rewrite decide_False. Qed.

Lemma rendered_nonempty rooted out : rendered rooted out ≠ "".
Proof. unfold rendered. destruct rooted; [done|]. by case_decide. Qed.

Lemma rendered_rooted rooted out :
  Forall kept out → HasPrefix (rendered rooted out) "/" = rooted.
Proof.
  intros Hk. unfold rendered. destruct rooted; [done|].
  case_decide; [done|]. apply Join_kept_rooted. by apply Forall_reverse.
Qed.

Lemma kept_Join_Split out :
  out ≠ [] → Forall kept out → Split (Join out "/") "/" = out.
Proof.
  intros Hne Hk. apply separated_Split. split_and!; [done| |done].
  eapply Forall_impl; [done|]. by intros e (_ & _ & ?).
Qed.

Lemma rendered_settled rooted out :
  settled rooted out →
  foldl (filepath.cleanStep rooted) [] (Split (rendered rooted out) "/") = out.
Proof.
  intros [Hst Hk]. unfold rendered.
  assert (Forall kept (reverse out)) as Hkr by (by apply Forall_reverse).
  destruct (decide (out = [])) as [->|Hne].
  - by destruct rooted.
  - assert (reverse out ≠ []) as Hner.
    { intros E. apply Hne. by rewrite <-(reverse_involutive out), E. }
    assert (Join (reverse out) "/" ≠ "") as Hbody.
    { intros E. by apply Join_kept_empty in E. }
    destruct rooted.
    + rewrite app_cons, app_empty. simpl Split at 1. 
      change (Ascii.eqb "/" "/") with true. cbv iota.
      rewrite kept_Join_Split by done. simpl. apply Hst.
    + rewrite decide_False by done. rewrite kept_Join_Split by done. apply Hst.
Qed.

Lemma HasPrefix_app_l s tail p :
  s ≠ "" → HasPrefix (s +:+ tail) (String p "") = HasPrefix s (String p "").
Proof. intros H. destruct s; [done|]. rewrite app_cons. simpl. by destruct (Ascii.eqb _ _). Qed.

Lemma Clean_Clean_app path tail :
  path ≠ "" →
  filepath.Clean (filepath.Clean path +:+ "/" +:+ tail) = filepath.Clean (path +:+ "/" +:+ tail).
Proof.
  intros Hne. set (rooted := HasPrefix path "/").
  set (out := foldl (filepath.cleanStep rooted) [] (Split path "/")).
  assert (settled rooted out) as Hout.
  { apply settled_foldl; [|apply settled_nil]. apply Split_separated. }
  rewrite (Clean_rendered path) by done. fold rooted. fold out.
  rewrite !Clean_rendered.
  2:{ intros E. by apply app_eq_empty in E. }
  2:{ intros E. apply app_eq_empty in E. by apply rendered_nonempty in E. }
  rewrite !HasPrefix_app_l by (done || apply rendered_nonempty).
  rewrite rendered_rooted by apply Hout. fold rooted.
  f_equal. change ("/" +:+ tail) with (String "/" tail).
  rewrite !Split_app, !foldl_app. fold out. by rewrite rendered_settled.
Qed.

Lemma filepath_Join_cons e rest :
  e ≠ "" → filepath.Join (e :: rest) = filepath.Clean (strings.Join (e :: rest) "/").
Proof. intros H. cbn [filepath.Join]. by rewrite decide_True. Qed.

Lemma filepath_Join_empty rest : filepath.Join ("" :: rest) = filepath.Join rest.
Proof. reflexivity. Qed.

Lemma Join_snoc elem last :
  filepath.Join [filepath.Join elem; last] = filepath.Join (elem ++ [last]).
Proof.
  induction elem as [|e elem IH]; [done|].
  rewrite <-app_comm_cons.
  destruct (decide (e = "")) as [->|He]; [by rewrite !filepath_Join_empty|].
  assert (strings.Join (e :: elem) "/" ≠ "") as HJ.
  { destruct elem; [done|]. rewrite Join_cons by done. intros E. by apply app_eq_empty in E. }
  rewrite (filepath_Join_cons e elem), (filepath_Join_cons e (elem ++ [last])) by done.
  rewrite filepath_Join_cons.
  2:{ rewrite Clean_rendered by done. apply rendered_nonempty. }
  rewrite (app_comm_cons elem [last] e), (Join_app (e :: elem) [last]) by done.
  rewrite (Join_cons _ [last]) by done.
  apply Clean_Clean_app, HJ.
Qed.

(** *** Paths made of segments *)

Lemma foldl_cleanStep_segments rooted out elems :
  Forall segment elems →
  foldl (filepath.cleanStep rooted) out elems = reverse elems ++ out.
Proof.
  intros H. revert out. induction H as [|e elems [He Hdd] _ IH]; intros out; [done|].
  simpl. rewrite cleanStep_kept by done. rewrite IH, reverse_cons.
  by rewrite <-(assoc_L (++)).
Qed.

Lemma segments_kept elems : Forall segment elems → Forall kept elems.
Proof. intros H. eapply Forall_impl; [exact H|]. by intros e [? _]. Qed.

(** Joining a rooted path of segments with further segments nests
    them, one below the other. *)
Lemma Join_segments root elems :
  root ≠ [] → elems ≠ [] → Forall segment root → Forall segment elems →
  filepath.Join (("/" +:+ Join root "/") :: elems)
  = ("/" +:+ Join root "/") +:+ "/" +:+ Join elems "/".
Proof.
  intros Hr He Hroot Helems.
  rewrite filepath_Join_cons by done. rewrite Join_cons by done.
  rewrite Clean_rendered by done.
  change (HasPrefix (("/" +:+ Join root "/") +:+ "/" +:+ Join elems "/") "/") with true.
  change ("/" +:+ Join elems "/") with (String "/" (Join elems "/")).
  rewrite Split_app. change ("/" +:+ Join root "/") with (String "/" (Join root "/")).
  change (Split (String "/" (Join root "/")) "/") with ("" :: Split (Join root "/") "/").
  rewrite !kept_Join_Split by (done || by apply segments_kept).
  change (foldl (filepath.cleanStep true) [] (("" :: root) ++ elems))
    with (foldl (filepath.cleanStep true) [] (root ++ elems)).
  rewrite foldl_cleanStep_segments by (by apply Forall_app).
  unfold rendered. rewrite app_nil_r, reverse_involutive.
  rewrite Join_app by done. by rewrite !app_cons, !app_empty.
Qed.

End paths.

(** * The status shown for the selected file ([handleDiffView]) *)

Section selected_file.
Import server.

Lemma statusSet_spec lines x :
  x ∈ statusSet lines ↔ ∃ token, lines !! token = Some x.
Proof.
  revert x. unfold statusSet.
  apply (map_fold_weak_ind
           (λ (statuses : gset string) (m : gmap string string),
              ∀ x, x ∈ statuses ↔ ∃ token, m !! token = Some x)).
  - intros x. rewrite elem_of_empty. setoid_rewrite lookup_empty.
    split; [done|by intros [? ?]].
  - intros token status m statuses Hfresh IH x.
    rewrite insert_carries by done. rewrite elem_of_union, elem_of_singleton, IH.
    split; (intros [?|?]; [left|right]; done).
Qed.

(** There, a FileReview with two distinct values is reported as mixed. *)
Lemma fileStatus_mixed ledger repo path review d d' :
  found ledger repo path = Some review →
  carries review d → carries review d' → d ≠ d' →
  fileStatus ledger repo path = "mixed".
Proof.
  unfold found, fileStatus. intros Hf Hd Hd' Hne.
  destruct (list_find (matches path repo) (ReviewedFiles ledger)) as [[i r]|];
    [|done]. injection Hf as ->.
  apply statusSet_spec in Hd, Hd'.
  assert (2 ≤ size (statusSet (Lines review))) as Hsize.
  { assert (size ({[d]} ∪ {[d']} : gset string) = 2) as <-.
    { rewrite size_union by (by apply disjoint_singleton_l, not_elem_of_singleton).
      by rewrite !size_singleton. }
    apply subseteq_size. apply union_subseteq. by rewrite !singleton_subseteq_l. }
  rewrite decide_False by lia. by rewrite decide_True by lia.
Qed.

(** And one whose entries all carry the same value is reported as that
    value. *)
Lemma fileStatus_single ledger repo path review d :
  found ledger repo path = Some review →
  carries review d → (∀ d', carries review d' → d' = d) →
  fileStatus ledger repo path = d.
Proof.
  unfold found, fileStatus. intros Hf Hd Honly.
  destruct (list_find (matches path repo) (ReviewedFiles ledger)) as [[i r]|];
    [|done]. injection Hf as ->.
  assert (statusSet (Lines review) = {[d]}) as ->.
  { apply set_eq. intros x. rewrite statusSet_spec, elem_of_singleton.
    split; [apply Honly|by intros ->]. }
  rewrite size_singleton, decide_True by done. by rewrite elements_singleton.
Qed.

End selected_file.

(** * The file list *)

Section file_list.
Import server.

Lemma entry_status diffText ledger repo files e :
  extractFilesFromDiff diffText ledger repo = Some files → e ∈ files →
  EStatus e = default "unreviewed" (reviewStatus <$> reviewOf ledger repo (EPath e)).
Proof.
  rewrite extractFilesFromDiff_eq. intros [= <-] He.
  rewrite sort_Slice_perm in He. apply list_elem_of_fmap in He as (path & -> & _).
  simpl. by rewrite fileStatusMap_lookup.
Qed.

Lemma reviewOf_None ledger repo path :
  reviewOf ledger repo path = None ↔
  ∀ review, review ∈ ReviewedFiles ledger → ¬ matches path repo review.
Proof.
  unfold reviewOf. rewrite last_None. split.
  - intros E review Hin Hm. by destruct (filter_nil_not_elem_of _ _ review E).
  - intros Hnone. destruct (filter _ _) as [|r l] eqn:E; [done|].
    assert (r ∈ r :: l) as Hr by left. rewrite <-E in Hr.
    apply list_elem_of_filter in Hr as [Hm Hr]. by destruct (Hnone r).
Qed.

Lemma entryOf_paths statusMap (paths : list string) :
  EPath <$> (entryOf statusMap <$> paths) = paths.
Proof. induction paths as [|path paths IH]; simpl; [done|by f_equal]. Qed.

Lemma carries_rejected_dec review :
  carries review StateRejected ∨ ¬ carries review StateRejected.
Proof.
  destruct (lineFlags_spec (Lines review)) as (_ & Hr & _).
  destruct (lineFlags (Lines review)).1.2; [left; by apply Hr|right].
  intros H. by apply Hr in H.
Qed.

Lemma reviewStatus_only review d :
  isDecision d → carries review d →
  (∀ d', isDecision d' → carries review d' → d' = d) →
  reviewStatus review = d.
Proof.
  intros Hd Hc Honly.
  assert (∀ d', isDecision d' → d' ≠ d → ¬ carries review d') as Hother.
  { intros d' ? Hne ?. apply Hne. by apply Honly. }
  unfold isDecision in *. destruct Hd as [-> | [-> | ->]].
  - apply reviewStatus_approved; [apply Hother|]; auto.
  - by apply reviewStatus_rejected.
  - apply reviewStatus_skipped; [apply Hother|apply Hother|]; auto.
Qed.

Lemma reviewStatus_several review d d' :
  isDecision d → isDecision d' → d ≠ d' → carries review d → carries review d' →
  outranking review (reviewStatus review).
Proof.
  intros Hd Hd' Hne Hc Hc'. unfold outranking.
  destruct (carries_rejected_dec review) as [Hr|Hr].
  - left. split; [done|]. by apply reviewStatus_rejected.
  - right. split; [done|]. apply reviewStatus_approved; [done|].
    unfold isDecision in *.
    destruct Hd as [-> | [-> | ->]]; [done|done|].
    destruct Hd' as [-> | [-> | ->]]; [done|done|done].
Qed.

Lemma reviewStatus_known review : knownStatus (reviewStatus review).
Proof.
  unfold reviewStatus, knownStatus, statusOrder.
  destruct (lineFlags (Lines review)) as [[[] []] []]; set_solver.
Qed.

Lemma entry_known diffText ledger repo files e :
  extractFilesFromDiff diffText ledger repo = Some files → e ∈ files →
  knownStatus (EStatus e).
Proof.
  intros Hf He. rewrite (entry_status _ _ _ _ _ Hf He).
  destruct (reviewOf ledger repo (EPath e)); simpl.
  - apply reviewStatus_known.
  - unfold knownStatus, statusOrder. set_solver.
Qed.

Lemma StronglySorted_on {A} (R R' : relation A) l :
  (∀ x y, x ∈ l → y ∈ l → R x y → R' x y) →
  StronglySorted R l → StronglySorted R' l.
Proof.
  intros Himp Hs. induction Hs as [|x l Hs IH Hx]; constructor.
  - apply IH. intros y z ??. apply Himp; by right.
  - rewrite Forall_forall in Hx. apply Forall_forall. intros y Hy.
    apply Himp; [by left|by right|by apply Hx].
Qed.



End file_list.

(** * Storage *)

Section ledger_store.
Import storage.




(** The token made of a repository identifier holds no separator and
    no colon. *)
Lemma underscored_safe repo :
  ¬ contains (underscored repo) "/" ∧ ¬ contains (underscored repo) ":".
Proof.
  induction repo as [|c repo [IH1 IH2]]; simpl; [tauto|].
  case_decide as Hc.
  - split; (intros [[=]|?]; done).
  - split; (intros [->|?]; [apply Hc; auto|done]).
Qed.

(** With a rooted storage root made of segments, and a token and
    commits that are segments, the location is the root, the token, the
    source commit and the target commit, each nested in the one
    before, and the file name below them. *)
Lemma location_nested s root repo sourceCommit targetCommit :
  baseStoragePath s = "/" +:+ strings.Join root "/" →
  root ≠ [] → Forall segment root →
  segment (underscored repo) → segment sourceCommit → segment targetCommit →
  getReviewStatePath s repo sourceCommit targetCommit
  = baseStoragePath s +:+ "/" +:+ underscored repo +:+ "/" +:+ sourceCommit
      +:+ "/" +:+ targetCommit +:+ "/review-state.json".
Proof.
  intros Hbase Hroot Hsegs Hrepo Hsc Htc.
  unfold getReviewStatePath. rewrite Join_snoc, safeRepoPath_underscored. simpl app.
  rewrite Hbase. rewrite Join_segments; [done|done|done|done|].
  repeat (apply Forall_cons; split; [done|]).
  apply Forall_singleton. unfold segment, kept. simpl. intuition discriminate.
Qed.


End ledger_store.

(** * The claims of the specification *)

Section claims.
Import server storage.

(** ** C1: the derived status of a file *)

(** C1, as stated, fails: with the ledger holding one FileReview for
    [a.txt] that carries an approved and a rejected entry, the file list
    reports [a.txt] as rejected, not as mixed. *)
Lemma rejected_not_mixed :
  ¬ statusRule mixed sampleDiff (ledgerOf [twoDecisions]) "/repo".
Proof.
  intros (files & Hfiles & Hrule).
  assert (extractFilesFromDiff sampleDiff (ledgerOf [twoDecisions]) "/repo"
          = Some [ {| EPath := "b.txt"; EStatus := "unreviewed" |};
                   {| EPath := "c.txt"; EStatus := "unreviewed" |};
                   {| EPath := "a.txt"; EStatus := "rejected" |} ]) as Hrun
    by (vm_compute; reflexivity).
  rewrite Hrun in Hfiles. injection Hfiles as <-.
  specialize (Hrule {| EPath := "a.txt"; EStatus := "rejected" |}).
  assert (reviewOf (ledgerOf [twoDecisions]) "/repo" "a.txt" = Some twoDecisions)
    as Hreview by reflexivity.
  cbn [EPath EStatus] in Hrule. rewrite Hreview in Hrule.
  destruct Hrule as [_ Hseveral]; [set_solver|].
  assert (mixed twoDecisions "rejected") as Hmixed; [|discriminate Hmixed].
  apply Hseveral. exists StateApproved, StateRejected.
  split_and!; [by left|by right; left|done|by exists "1"|by exists "2"].
Qed.

(** C1, amended: for every file of the file list, the status is
    unreviewed when the ledger has no FileReview matching path and
    repository; it is the Decision that the matching FileReview (the
    last one, should the ledger hold several) carries when it carries
    exactly one distinct Decision; and when it carries more than one,
    the status is rejected if a rejected entry is among them and
    approved otherwise. *)
Theorem derived_status diffText ledger repo :
  statusRule outranking diffText ledger repo.
Proof.
  unfold statusRule. rewrite extractFilesFromDiff_eq. eexists. split; [done|].
  intros e He.
  pose proof (entry_status diffText ledger repo _ e
                (extractFilesFromDiff_eq diffText ledger repo) He) as Hstatus.
  rewrite Hstatus. destruct (reviewOf ledger repo (EPath e)) as [review|]; simpl; [|done].
  split.
  - intros d Hd Hc Honly. by apply reviewStatus_only.
  - intros (d & d' & Hd & Hd' & Hne & Hc & Hc').
    by apply (reviewStatus_several review d d').
Qed.

Lemma derived_status_witness :
  ∃ files,
    extractFilesFromDiff sampleDiff (ledgerOf [twoDecisions]) "/repo" = Some files ∧
    ∀ e, e ∈ files → EPath e = "a.txt" → EStatus e = StateRejected.
Proof.
  destruct (derived_status sampleDiff (ledgerOf [twoDecisions]) "/repo")
    as (files & Hfiles & Hrule).
  exists files. split; [exact Hfiles|]. intros e He Hpath.
  specialize (Hrule e He). rewrite Hpath in Hrule.
  change (reviewOf (ledgerOf [twoDecisions]) "/repo" "a.txt")
    with (Some twoDecisions) in Hrule.
  destruct Hrule as [_ Hseveral].
  destruct Hseveral as [[_ Hstatus]|[Hno _]].
  - exists StateApproved, StateRejected.
    split_and!; [by left|by right; left|done|by exists "1"|by exists "2"].
  - exact Hstatus.
  - destruct Hno. by exists "2".
Defined.

(** ** C2: values outside the closed set, on load *)




(** ** C3: the order of the file list *)

(** C3: the file list is sorted by status, unreviewed first, then
    skipped, then rejected, then approved, and by ascending path among
    files of equal status; b.txt (approved), a.txt (unreviewed) and
    c.txt (skipped) come out as a.txt, c.txt, b.txt. *)
Theorem file_list_sorted :
  (∀ diffText ledger repo,
     ∃ files, extractFilesFromDiff diffText ledger repo = Some files ∧
              StronglySorted displayedBefore files) ∧
  extractFilesFromDiff sampleDiff sampleLedger "/repo"
  = Some [ {| EPath := "a.txt"; EStatus := "unreviewed" |};
           {| EPath := "c.txt"; EStatus := "skipped" |};
           {| EPath := "b.txt"; EStatus := "approved" |} ].
Proof.
  split; [|by vm_compute].
  intros diffText ledger repo.
  pose proof (extractFilesFromDiff_eq diffText ledger repo) as Hfiles.
  eexists. split; [exact Hfiles|].
  eapply StronglySorted_on; [|apply sort_Slice_sorted].
  intros a b Ha Hb. apply notAfter_displayedBefore; by eapply entry_known.
Qed.

(** ** C4: recording overwrites *)



(** ** C5: loading where nothing is stored *)



(** ** C6: saving an unpinned ledger *)

(** C6: for a ledger whose source or target commit is the empty string,
    [SaveReviewState] returns the error on missing commit hashes and
    leaves the file tree as it was. *)
Theorem save_unpinned s ledger repo (d : disk) :
  SourceCommit ledger = "" ∨ TargetCommit ledger = "" →
  SaveReviewState s ledger repo d = (Some ErrCommitsRequired, d).
Proof. intros H. unfold SaveReviewState. by rewrite decide_True. Qed.

Lemma save_unpinned_witness :
  SaveReviewState sampleStorage unpinnedLedger "/repo" (diskWith sampleLedger)
  = (Some ErrCommitsRequired, diskWith sampleLedger).
Proof. apply save_unpinned. left. reflexivity. Defined.

(** ** C7: the location of a ledger *)

(** C7: the location of a ledger is the base storage root joined with
    the repository identifier in which each separator and each colon is
    replaced by an underscore, then the source commit, then the target
    commit, then the file name review-state.json; so the ledger of
    /path/to:repo at commits abc123 and def456 is kept under
    _path_to_repo/abc123/def456 below the root. *)
Theorem ledger_location :
  (∀ s repo sourceCommit targetCommit,
     getReviewStatePath s repo sourceCommit targetCommit
     = filepath.Join [ baseStoragePath s; underscored repo;
                       sourceCommit; targetCommit; "review-state.json" ]) ∧
  getReviewStatePath sampleStorage "/path/to:repo" "abc123" "def456"
  = "/home/dev/.diffty/_path_to_repo/abc123/def456/review-state.json".
Proof.
  split; [|reflexivity].
  intros s repo sourceCommit targetCommit.
  unfold getReviewStatePath. rewrite Join_snoc. simpl app.
  by rewrite safeRepoPath_underscored.
Qed.

(** ** C8: save, then load *)



(** ** C9: parsing the diff *)

Lemma malformed_not_wellFormed line :
  malformed line → ∀ path, ¬ wellFormed line path.
Proof.
  intros (_ & tokens & Hsep & Hbad) path (_ & tokens' & t0 & t1 & t2 & more & Hsep' & ->).
  apply separated_Split in Hsep, Hsep'. rewrite Hsep' in Hsep. subst tokens.
  destruct Hbad as [Hlen|(t3 & Ht3 & Hno)].
  - simpl in Hlen. lia.
  - injection Ht3 as <-. by destruct (Hno path).
Qed.

(** C9: the loop over the lines of a diff never panics; it emits, in
    order, the path after the marker of each well-formed header and
    nothing for any other line, a malformed header included; the file
    list holds exactly the emitted entries; and it is empty when no
    line is a well-formed header. *)
Theorem parse_skips_malformed diffText ledger repo :
  ∃ entries files,
    extractLoop (fileStatusMap ledger repo) (strings.Split diffText "010") []
    = Some entries ∧
    Parsed (strings.Split diffText "010") (EPath <$> entries) ∧
    (∀ line, malformed line → headerPath line = Some None) ∧
    extractFilesFromDiff diffText ledger repo = Some files ∧
    files ≡ₚ entries ∧
    ((∀ line path, line ∈ strings.Split diffText "010" → ¬ wellFormed line path) →
     files = []).
Proof.
  eexists _, _. split_and!.
  - apply extractLoop_eq.
  - simpl. rewrite entryOf_paths. apply Parsed_emitted.
  - intros line Hm. rewrite headerPath_emitted. f_equal.
    apply emitted_None. by apply malformed_not_wellFormed.
  - apply extractFilesFromDiff_eq.
  - simpl. apply sort_Slice_perm.
  - intros Hnone.
    assert (omap emitted (strings.Split diffText "010") = []) as ->; [|done].
    generalize dependent (strings.Split diffText "010"). intros lines Hnone.
    induction lines as [|line lines IH]; [done|]. simpl.
    rewrite (proj2 (emitted_None line)).
    + apply IH. intros l p Hl. apply Hnone. by right.
    + intros p. apply Hnone. by left.
Qed.

Lemma parse_skips_malformed_witness :
  malformed "diff --git a/only-three" ∧
  headerPath "diff --git a/only-three" = Some None ∧
  extractFilesFromDiff ("diff --git a/only-three" +:+ nl +:+ "+added")
    sampleLedger "/repo" = Some [].
Proof.
  assert (malformed "diff --git a/only-three") as Hmalformed.
  { split; [by exists "a/only-three"|].
    exists ["diff"; "--git"; "a/only-three"]. split; [|left; simpl; lia].
    split_and!; [reflexivity| |done].
    repeat (apply Forall_cons; split; [simpl; intuition discriminate|]).
    apply Forall_nil_2. }
  destruct (parse_skips_malformed ("diff --git a/only-three" +:+ nl +:+ "+added")
              sampleLedger "/repo")
    as (entries & files & _ & _ & Hskip & Hfiles & _ & Hempty).
  split_and!; [exact Hmalformed|by apply Hskip|].
  rewrite Hfiles. f_equal. apply Hempty.
  change (strings.Split ("diff --git a/only-three" +:+ nl +:+ "+added") "010")
    with ["diff --git a/only-three"; "+added"].
  intros line path Hline.
  apply elem_of_cons in Hline as [->|Hline].
  - by apply malformed_not_wellFormed.
  - apply list_elem_of_singleton in Hline as ->. by intros [[rest [=]] _].
Defined.

(** ** C10: a FileReview without any Decision *)



End claims.

(** * Further properties of the storage *)

Section registry.
Import storage.




End registry.

(** * Base names and the places of the files *)

Section base_names.
Import strings storage.

Lemma stripSeparators_app prefix elem :
  elem ≠ "" → ¬ contains elem "/" →
  filepath.stripSeparators (prefix +:+ elem) = prefix +:+ elem.
Proof.
  intros Hne Hsep.
  assert (filepath.stripSeparators elem = elem) as Helem.
  { clear Hne. induction elem as [|c elem IH]; [done|]. simpl in *.
    rewrite IH by tauto. destruct elem; [|done].
    destruct (Ascii.eqb_spec c "/"); [tauto|done]. }
  induction prefix as [|c prefix IH]; [by rewrite app_empty|].
  rewrite app_cons. simpl. rewrite IH.
  destruct (prefix +:+ elem) eqn:E; [|done].
  pose proof (app_eq_empty _ _ E) as ->. by rewrite app_empty in E.
Qed.

Lemma Base_app prefix elem :
  kept elem → filepath.Base (prefix +:+ "/" +:+ elem) = elem.
Proof.
  intros (Hne & _ & Hsep). unfold filepath.Base.
  rewrite decide_False by (by destruct prefix).
  rewrite <-app_assoc, stripSeparators_app by done. rewrite app_assoc.
  change ("/" +:+ elem) with (String "/" elem).
  rewrite Split_app, (Split_kept "/" elem) by done.
  rewrite last_snoc. simpl. by rewrite decide_False.
Qed.

Lemma Base_kept elem : kept elem → filepath.Base elem = elem.
Proof.
  intros (Hne & _ & Hsep). unfold filepath.Base. rewrite decide_False by done.
  rewrite <-(app_empty elem), stripSeparators_app by done. rewrite app_empty.
  rewrite Split_kept by done. simpl. by rewrite decide_False.
Qed.

Lemma Base_rendered rooted elem out :
  kept elem → Forall kept out → filepath.Base (rendered rooted (elem :: out)) = elem.
Proof.
  intros Helem Hout. unfold rendered. rewrite reverse_cons.
  destruct (decide (out = [])) as [->|Hne].
  - simpl. destruct rooted.
    + by apply (Base_app "").
    + rewrite decide_False by apply Helem. by apply Base_kept.
  - assert (reverse out ≠ []) as Hr.
    { intros E. apply Hne. by rewrite <-(reverse_involutive out), E. }
    rewrite Join_app by done. simpl (Join [elem] "/").
    destruct rooted.
    + rewrite <-app_assoc. by apply Base_app.
    + rewrite decide_False; [by apply Base_app|].
      intros E. apply app_eq_empty in E.
      apply Join_kept_empty in E; [done|by apply Forall_reverse].
Qed.

Lemma Clean_last path elem :
  segment elem → path ≠ "" →
  filepath.Base (filepath.Clean (path +:+ "/" +:+ elem)) = elem.
Proof.
  intros [Hk Hdd] Hne.
  rewrite Clean_rendered by (intros E; by apply app_eq_empty in E).
  change ("/" +:+ elem) with (String "/" elem).
  rewrite Split_app, foldl_app, (Split_kept "/" elem) by apply Hk. simpl foldl at 1.
  rewrite cleanStep_kept by done. apply Base_rendered; [done|].
  apply settled_foldl; [apply Split_separated|apply settled_nil].
Qed.

(** The last of the elements joined names the file, when it is a
    segment. *)
Lemma Base_Join elems elem :
  segment elem → filepath.Base (filepath.Join (elems ++ [elem])) = elem.
Proof.
  intros Hseg. induction elems as [|e elems IH].
  - destruct Hseg as [Hk Hdd]. simpl app.
    rewrite filepath_Join_cons by apply Hk. simpl (Join [elem] "/").
    rewrite Clean_rendered by apply Hk.
    rewrite Split_kept by apply Hk. simpl foldl.
    rewrite cleanStep_kept by done. by apply Base_rendered.
  - rewrite <-app_comm_cons.
    destruct (decide (e = "")) as [->|He]; [by rewrite filepath_Join_empty|].
    rewrite filepath_Join_cons by done.
    rewrite (app_comm_cons elems [elem] e), (Join_app (e :: elems) [elem]) by done.
    apply Clean_last; [done|].
    destruct elems; [done|]. rewrite Join_cons by done.
    intros E. by apply app_eq_empty in E.
Qed.

Lemma segment_ledger_name : segment "review-state.json".
Proof. unfold segment, kept. simpl. intuition discriminate. Qed.


Lemma location_base_aux s repo sourceCommit targetCommit :
  filepath.Base (getReviewStatePath s repo sourceCommit targetCommit)
  = "review-state.json".
Proof.
  unfold getReviewStatePath.
  apply (Base_Join [filepath.Join [baseStoragePath s; safeRepoPath repo;
                                   sourceCommit; targetCommit]]).
  apply segment_ledger_name.
Qed.

(** X2: whatever the repository identifier and the commits are, the
    location of a ledger names a file review-state.json. *)
Theorem location_base s repo sourceCommit targetCommit :
  filepath.Base (getReviewStatePath s repo sourceCommit targetCommit)
  = "review-state.json".
Proof. apply location_base_aux. Qed.


End base_names.

(** * Ledgers and registry on one file tree *)

Section ledger_keys.
Import strings storage.


Lemma LoadReviewState_ext s repo sourceBranch targetBranch sourceCommit targetCommit
    (d d' : disk) :
  d !! getReviewStatePath s repo sourceCommit targetCommit
  = d' !! getReviewStatePath s repo sourceCommit targetCommit →
  LoadReviewState s repo sourceBranch targetBranch sourceCommit targetCommit d
  = LoadReviewState s repo sourceBranch targetBranch sourceCommit targetCommit d'.
Proof. intros E. unfold LoadReviewState, notExist, ReadFile. by rewrite E. Qed.

Lemma save_lookup_other s ledger repo (d : disk) name :
  name ≠ getReviewStatePath s repo (SourceCommit ledger) (TargetCommit ledger) →
  (SaveReviewState s ledger repo d).2 !! name = d !! name.
Proof.
  intros Hne. unfold SaveReviewState, WriteFile. case_decide; [done|].
  cbn [snd]. apply lookup_insert_ne. by intros E.
Qed.



Lemma nested_inj elem rest elem' rest' :
  ¬ contains elem "/" → ¬ contains elem' "/" →
  elem +:+ "/" +:+ rest = elem' +:+ "/" +:+ rest' → elem = elem' ∧ rest = rest'.
Proof.
  intros He He' E.
  assert (elem = elem') as <-.
  { apply (f_equal (λ s, Split s "/")) in E.
    change ("/" +:+ rest) with (String "/" rest) in E.
    change ("/" +:+ rest') with (String "/" rest') in E.
    rewrite !Split_app, (Split_kept "/" elem), (Split_kept "/" elem') in E by done.
    simpl in E. congruence. }
  split; [done|]. by apply (inj (String.app elem)), (inj (String.app "/")) in E.
Qed.

Lemma location_apart s root repo sourceCommit targetCommit repo' sourceCommit' targetCommit' :
  baseStoragePath s = "/" +:+ Join root "/" → root ≠ [] → Forall segment root →
  segment (underscored repo) → segment sourceCommit → segment targetCommit →
  segment (underscored repo') → segment sourceCommit' → segment targetCommit' →
  keyOf repo sourceCommit targetCommit ≠ keyOf repo' sourceCommit' targetCommit' →
  getReviewStatePath s repo sourceCommit targetCommit
  ≠ getReviewStatePath s repo' sourceCommit' targetCommit'.
Proof.
  intros Hbase Hroot Hsegs Hr Hs Ht Hr' Hs' Ht' Hkey E. apply Hkey. unfold keyOf.
  rewrite (location_nested s root repo), (location_nested s root repo') in E by done.
  apply (inj (String.app (baseStoragePath s))), (inj (String.app "/")) in E.
  apply nested_inj in E as [-> E]; [|apply Hr|apply Hr'].
  apply nested_inj in E as [-> E]; [|apply Hs|apply Hs'].
  change "/review-state.json" with ("/" +:+ "review-state.json") in E.
  apply nested_inj in E as [-> _]; [done|apply Ht|apply Ht'].
Qed.

(** X4: saving the ledger of one key leaves the ledger of every other key
    as it is, where root, repository tokens and commits are path
    segments. *)
Theorem ledgers_apart s root ledger repo repo' sourceBranch targetBranch
    sourceCommit' targetCommit' (d : disk) :
  baseStoragePath s = "/" +:+ Join root "/" → root ≠ [] → Forall segment root →
  segment (underscored repo) →
  segment (SourceCommit ledger) → segment (TargetCommit ledger) →
  segment (underscored repo') → segment sourceCommit' → segment targetCommit' →
  keyOf repo (SourceCommit ledger) (TargetCommit ledger)
    ≠ keyOf repo' sourceCommit' targetCommit' →
  LoadReviewState s repo' sourceBranch targetBranch sourceCommit' targetCommit'
    (SaveReviewState s ledger repo d).2
  = LoadReviewState s repo' sourceBranch targetBranch sourceCommit' targetCommit' d.
Proof.
  intros Hbase Hroot Hsegs Hr Hs Ht Hr' Hs' Ht' Hkey.
  apply LoadReviewState_ext, save_lookup_other.
  intros E. by apply (location_apart s root repo' sourceCommit' targetCommit'
                        repo (SourceCommit ledger) (TargetCommit ledger)).
Qed.

Lemma sample_root :
  baseStoragePath sampleStorage = "/" +:+ Join ["home"; "dev"; ".diffty"] "/" ∧
  Forall segment ["home"; "dev"; ".diffty"].
Proof.
  split; [reflexivity|].
  repeat (apply Forall_cons; split;
          [unfold segment, kept; simpl; intuition discriminate|]).
  apply Forall_nil_2.
Qed.

Lemma ledgers_apart_witness :
  LoadReviewState sampleStorage "/repo" "feature" "main" "abc123" "fff999"
    (SaveReviewState sampleStorage sampleLedger "/repo" ∅).2
  = LoadReviewState sampleStorage "/repo" "feature" "main" "abc123" "fff999" ∅.
Proof.
  destruct sample_root as [Hbase Hroot].
  apply (ledgers_apart sampleStorage ["home"; "dev"; ".diffty"]);
    [exact Hbase|discriminate|exact Hroot|..].
  1-6: unfold segment, kept; simpl; intuition discriminate.
  vm_compute. discriminate.
Defined.

(** X5: with a rooted storage root made of segments, and a repository
    token and commits that are segments, the ledger is kept at
    root/token/source commit/target commit/review-state.json. *)
Theorem ledger_location_nested s root repo sourceCommit targetCommit :
  baseStoragePath s = "/" +:+ Join root "/" →
  root ≠ [] → Forall segment root →
  segment (underscored repo) → segment sourceCommit → segment targetCommit →
  getReviewStatePath s repo sourceCommit targetCommit
  = baseStoragePath s +:+ "/" +:+ underscored repo +:+ "/" +:+ sourceCommit
      +:+ "/" +:+ targetCommit +:+ "/review-state.json".
Proof. apply location_nested. Qed.

Lemma ledger_location_nested_witness :
  getReviewStatePath sampleStorage "/path/to:repo" "abc123" "def456"
  = "/home/dev/.diffty" +:+ "/" +:+ "_path_to_repo" +:+ "/" +:+ "abc123"
      +:+ "/" +:+ "def456" +:+ "/review-state.json".
Proof.
  destruct sample_root as [Hbase Hroot].
  apply (ledger_location_nested sampleStorage ["home"; "dev"; ".diffty"]);
    [exact Hbase|discriminate|exact Hroot|..].
  all: unfold segment, kept; simpl; intuition discriminate.
Defined.



End ledger_keys.

(** * Further properties of recording and of the file list *)

Section more_recording.
Import server.

Lemma setAll_setAll status review :
  setAll status (setAll status review) = setAll status review.
Proof. unfold setAll. simpl. by rewrite insert_insert_eq. Qed.

(** The two ways in which [record] changes the list of FileReviews. *)
Lemma record_cases ledger repo path status :
  (∃ i review,
     ReviewedFiles ledger !! i = Some review ∧ matches path repo review ∧
     ReviewedFiles (record ledger repo path status)
     = <[i := setAll status review]> (ReviewedFiles ledger) ∧
     list_find (matches path repo) (ReviewedFiles (record ledger repo path status))
     = Some (i, setAll status review)) ∨
  (Forall (λ review, ¬ matches path repo review) (ReviewedFiles ledger) ∧
   ReviewedFiles (record ledger repo path status)
   = ReviewedFiles ledger ++ [ {| Repo := repo; Path := path;
                                  Lines := {["all" := status]} |} ] ∧
   list_find (matches path repo) (ReviewedFiles (record ledger repo path status))
   = Some (length (ReviewedFiles ledger),
           {| Repo := repo; Path := path; Lines := {["all" := status]} |})).
Proof.
  unfold record. simpl.
  destruct (list_find (matches path repo) (ReviewedFiles ledger)) as [[i review]|] eqn:E.
  - left. exists i, review. apply list_find_Some in E as (Hi & Hm & Hbefore).
    split_and!; [done..|]. apply list_find_Some. split_and!.
    + apply list_lookup_insert_eq. by eapply lookup_lt_Some.
    + done.
    + intros j y Hj Hlt. rewrite list_lookup_insert_ne in Hj by lia. by eapply Hbefore.
  - right. apply list_find_None in E. split_and!; [done..|].
    apply list_find_Some. split_and!.
    + by apply list_lookup_middle.
    + done.
    + intros j y Hj Hlt. rewrite lookup_app_l in Hj by done.
      rewrite Forall_forall in E. eapply E, list_elem_of_lookup_2, Hj.
Qed.

Lemma ReviewState_ext (ledger ledger' : ReviewState) :
  ReviewedFiles ledger = ReviewedFiles ledger' →
  SourceBranch ledger = SourceBranch ledger' →
  TargetBranch ledger = TargetBranch ledger' →
  SourceCommit ledger = SourceCommit ledger' →
  TargetCommit ledger = TargetCommit ledger' →
  ledger = ledger'.
Proof. destruct ledger, ledger'. simpl. congruence. Qed.

Lemma record_files ledger repo path status :
  ReviewedFiles (record ledger repo path status)
  = match list_find (matches path repo) (ReviewedFiles ledger) with
    | Some (i, review) => <[i := setAll status review]> (ReviewedFiles ledger)
    | None => ReviewedFiles ledger ++ [ {| Repo := repo; Path := path;
                                           Lines := {["all" := status]} |} ]
    end.
Proof. reflexivity. Qed.

(** X7: recording the same decision twice leaves the ledger as the first
    recording left it. *)
Theorem record_idempotent ledger repo path status :
  record (record ledger repo path status) repo path status
  = record ledger repo path status.
Proof.
  apply ReviewState_ext; [|done..].
  destruct (record_cases ledger repo path status)
    as [(i & review & Hi & Hm & Hfiles & Hfind)|(Hnone & Hfiles & Hfind)].
  - rewrite (record_files (record ledger repo path status)), Hfind.
    rewrite setAll_setAll, Hfiles. apply list_insert_insert_eq.
  - rewrite (record_files (record ledger repo path status)), Hfind.
    rewrite Hfiles, insert_app_r_alt by done.
    rewrite Nat.sub_diag. unfold setAll. cbn [insert list_insert Lines Repo Path].
    by rewrite insert_singleton_eq.
Qed.

Lemma filter_insert_unmatched {A} (P : A → Prop) `{!∀ x, Decision (P x)}
    (l : list A) i x y :
  l !! i = Some x → ¬ P x → ¬ P y → filter P (<[i := y]> l) = filter P l.
Proof.
  revert i. induction l as [|z l IH]; intros [|i] Hi Hx Hy; simplify_eq/=.
  - by rewrite !filter_cons_False.
  - rewrite !filter_cons. by rewrite (IH i).
Qed.

Lemma reviewOf_record_other ledger repo path status repo' path' :
  repo' ≠ repo ∨ path' ≠ path →
  reviewOf (record ledger repo path status) repo' path' = reviewOf ledger repo' path'.
Proof.
  intros Hother. unfold reviewOf.
  assert (∀ review, matches path repo review → ¬ matches path' repo' review) as Hno.
  { intros review [Hp Hr] [Hp' Hr']. destruct Hother; congruence. }
  destruct (record_cases ledger repo path status)
    as [(i & review & Hi & Hm & -> & _)|(_ & -> & _)].
  - rewrite (filter_insert_unmatched _ _ i review); [done..| |].
    + by apply Hno.
    + apply Hno. by apply matches_setAll.
  - rewrite filter_app, filter_cons_False, filter_nil, app_nil_r; [done|].
    by apply Hno.
Qed.

(** X8: recording a decision for one file leaves every other entry of the
    file list, and the whole file list of another repository, as it
    is. *)
Theorem record_keeps_others diffText ledger repo path status repo' :
  ∃ before after,
    extractFilesFromDiff diffText ledger repo' = Some before ∧
    extractFilesFromDiff diffText (record ledger repo path status) repo' = Some after ∧
    ∀ e, repo' ≠ repo ∨ EPath e ≠ path → (e ∈ after ↔ e ∈ before).
Proof.
  eexists _, _. split_and!; [apply extractFilesFromDiff_eq..|].
  intros e Hother. rewrite !sort_Slice_perm, !list_elem_of_fmap.
  assert (∀ p, e = entryOf (fileStatusMap (record ledger repo path status) repo') p ↔
               e = entryOf (fileStatusMap ledger repo') p) as Hsame.
  { intros p. unfold entryOf. rewrite !fileStatusMap_lookup.
    destruct (decide (repo' ≠ repo ∨ p ≠ path)) as [Hp|Hp].
    - by rewrite reviewOf_record_other.
    - split; intros ->; simpl in Hother; destruct Hp; tauto. }
  split; intros (p & Hp & Hin); exists p; (split; [by apply Hsame|done]).
Qed.

(** X9: whatever strings the ledger holds, the file list reports each file
    as unreviewed, skipped, rejected or approved. *)
Theorem file_list_statuses diffText ledger repo :
  ∃ files,
    extractFilesFromDiff diffText ledger repo = Some files ∧
    ∀ e, e ∈ files → EStatus e ∈ ["unreviewed"; "skipped"; "rejected"; "approved"].
Proof.
  pose proof (extractFilesFromDiff_eq diffText ledger repo) as Hfiles.
  eexists. split; [exact Hfiles|]. intros e He. by eapply entry_known.
Qed.

(** X10: the file list of a repository is made from the entries of that
    repository alone. *)
Theorem other_repositories_ignored diffText ledger repo :
  extractFilesFromDiff diffText (ownEntries repo ledger) repo
  = extractFilesFromDiff diffText ledger repo.
Proof.
  rewrite !extractFilesFromDiff_eq. do 2 f_equal. apply list_fmap_ext.
  intros _ path _. unfold entryOf. f_equal. rewrite !fileStatusMap_lookup.
  unfold reviewOf, ownEntries. simpl. rewrite list_filter_filter.
  do 3 f_equal. apply list_filter_iff. intros review. unfold matches. tauto.
Qed.

(** X11: for a file whose FileReview, if it has one, carries one Decision
    and no other value, the status of the selected file and the status
    in the file list agree. *)
Theorem selected_status_agrees diffText ledger repo path :
  uniqueReviews ledger →
  (∀ review, found ledger repo path = Some review →
     ∃ d, isDecision d ∧ carries review d ∧ ∀ d', carries review d' → d' = d) →
  ∃ files,
    extractFilesFromDiff diffText ledger repo = Some files ∧
    ∀ e, e ∈ files → EPath e = path → EStatus e = fileStatus ledger repo path.
Proof.
  intros Hu Hsingle.
  pose proof (extractFilesFromDiff_eq diffText ledger repo) as Hfiles.
  eexists. split; [exact Hfiles|]. intros e He Hpath.
  rewrite (entry_status _ _ _ _ _ Hfiles He), Hpath, unique_reviewOf by done.
  destruct (found ledger repo path) as [review|] eqn:Hfound; simpl.
  - destruct (Hsingle review eq_refl) as (d & Hd & Hc & Honly).
    rewrite (fileStatus_single ledger repo path review d) by done.
    apply reviewStatus_only; [done..|]. intros d' _. apply Honly.
  - unfold fileStatus. unfold found in Hfound.
    by destruct (list_find _ _) as [[??]|].
Qed.

Lemma selected_status_agrees_witness :
  ∃ files,
    extractFilesFromDiff sampleDiff sampleLedger "/repo" = Some files ∧
    ∀ e, e ∈ files → EPath e = "b.txt" →
         EStatus e = fileStatus sampleLedger "/repo" "b.txt".
Proof.
  apply selected_status_agrees.
  - intros [|[|i]] [|[|j]] r r'; simpl; intros [= <-] [= <-]; done.
  - intros review [= <-]. exists StateApproved.
    split_and!; [by left|by exists "all"|].
    intros d' [token Htoken]. simpl in Htoken.
    by apply lookup_singleton_Some in Htoken as [_ <-].
Defined.

End more_recording.

(** * Navigation *)

Section navigation.
Import server Server.

Lemma nextFilePath_total files filePath : is_Some (nextFilePath files filePath).
Proof.
  unfold nextFilePath. case_decide; [|by eexists].
  destruct (list_find _ files) as [[i file]|]; [|by eexists].
  case_decide as Hi; [|by eexists].
  destruct (lookup_lt_is_Some_2 files (i + 1)) as [next ->]; [lia|]. by eexists.
Qed.

(** X12: in a file list without repeated paths, the next file of a file is
    the one listed after it, and the last file has none; a path that is
    not listed has none either. *)
Theorem next_follows_order files :
  NoDup (EPath <$> files) →
  (∀ i file, files !! i = Some file →
     nextFilePath files (EPath file) = Some (EPath <$> files !! (i + 1))) ∧
  (∀ filePath, filePath ∉ EPath <$> files →
     nextFilePath files filePath = Some None).
Proof.
  intros Hnodup. split.
  - intros i file Hi. unfold nextFilePath.
    pose proof (lookup_lt_Some _ _ _ Hi) as Hlen.
    rewrite decide_True by lia.
    assert (list_find (λ f, EPath f = EPath file) files = Some (i, file)) as ->.
    { apply list_find_Some. split_and!; [done..|].
      intros j other Hj Hlt Hsame.
      assert (j = i); [|lia].
      eapply (NoDup_lookup _ _ _ (EPath file) Hnodup);
        rewrite list_lookup_fmap; [by rewrite Hj; simpl; f_equal|by rewrite Hi]. }
    case_decide as Hlast.
    + destruct (lookup_lt_is_Some_2 files (i + 1)) as [next ->]; [lia|]. done.
    + by rewrite lookup_ge_None_2 by lia.
  - intros filePath Hout. unfold nextFilePath. case_decide; [|done].
    destruct (list_find _ files) as [[i file]|] eqn:E; [|done].
    apply list_find_Some in E as (Hi & <- & _). destruct Hout.
    apply list_elem_of_fmap. exists file. split; [done|]. by eapply list_elem_of_lookup_2.
Qed.

Lemma next_follows_order_witness :
  nextFilePath [ {| EPath := "a.txt"; EStatus := "unreviewed" |};
                 {| EPath := "c.txt"; EStatus := "skipped" |};
                 {| EPath := "b.txt"; EStatus := "approved" |} ] "c.txt"
  = Some (Some "b.txt").
Proof.
  assert (NoDup (EPath <$> [ {| EPath := "a.txt"; EStatus := "unreviewed" |};
                             {| EPath := "c.txt"; EStatus := "skipped" |};
                             {| EPath := "b.txt"; EStatus := "approved" |} ])) as Hnodup.
  { simpl. apply (bool_decide_unpack _). by vm_compute. }
  exact (proj1 (next_follows_order _ Hnodup) 1 {| EPath := "c.txt"; EStatus := "skipped" |}
           eq_refl).
Defined.

End navigation.

(** * The handlers *)

Section handlers.
Import server storage Server.





Lemma wellKept_record ledger repo path status :
  isDecision status → wellKept ledger → wellKept (record ledger repo path status).
Proof.
  intros Hstatus [Hu Hall]. split; [by apply record_unique|].
  intros review' Hin.
  destruct (record_cases ledger repo path status)
    as [(i & review & Hi & Hm & Hfiles & _)|(_ & Hfiles & _)];
    rewrite Hfiles in Hin.
  - apply list_elem_of_lookup in Hin as [j Hj].
    destruct (decide (i = j)) as [->|Hne].
    + rewrite list_lookup_insert_eq in Hj by (by eapply lookup_lt_Some).
      injection Hj as <-. exists status. split; [done|].
      destruct (Hall review) as (d & _ & Hlines); [by eapply list_elem_of_lookup_2|].
      unfold setAll. cbn [Lines]. rewrite Hlines. apply insert_singleton_eq.
    + rewrite list_lookup_insert_ne in Hj by done.
      apply Hall. by eapply list_elem_of_lookup_2.
  - apply elem_of_app in Hin as [Hin|Hin]; [by apply Hall|].
    apply list_elem_of_singleton in Hin as ->. by exists status.
Qed.


Lemma sampleLedger_wellKept : wellKept sampleLedger.
Proof.
  split.
  - intros [|[|i]] [|[|j]] r r'; simpl; intros [= <-] [= <-]; done.
  - intros review Hin. simpl in Hin.
    apply elem_of_cons in Hin as [->|Hin];
      [|apply list_elem_of_singleton in Hin as ->].
    + exists StateApproved. split; [by left|done].
    + exists StateSkipped. split; [by right; right|done].
Qed.



(** X14: in such a ledger the decision recorded last is the status of the
    file, in the file list and for the selected file. *)
Theorem last_decision_wins diffText ledger repo path status :
  wellKept ledger → isDecision status →
  ∃ files,
    extractFilesFromDiff diffText (record ledger repo path status) repo = Some files ∧
    (∀ e, e ∈ files → EPath e = path → EStatus e = status) ∧
    fileStatus (record ledger repo path status) repo path = status.
Proof.
  intros Hkept Hstatus.
  destruct (wellKept_record ledger repo path status Hstatus Hkept) as [Hu Hall].
  destruct (record_found ledger repo path status) as (review & Hfound & Hlast & _).
  assert (carries review status ∧ ∀ d', carries review d' → d' = status) as [Hc Honly].
  { destruct (Hall review) as (d & _ & Hlines).
    - unfold found in Hfound. apply fmap_Some in Hfound as ([i r] & Hfind & ->).
      apply list_find_Some in Hfind as (Hi & _). by eapply list_elem_of_lookup_2.
    - rewrite Hlines in Hlast. apply lookup_singleton_Some in Hlast as [_ ->].
      split; [exists "all"; rewrite Hlines; apply lookup_singleton_eq|].
      intros d' [token Htoken]. rewrite Hlines in Htoken.
      by apply lookup_singleton_Some in Htoken as [_ <-]. }
  pose proof (extractFilesFromDiff_eq diffText (record ledger repo path status) repo)
    as Hfiles.
  eexists. split_and!; [exact Hfiles| |].
  - intros e He Hpath.
    rewrite (entry_status _ _ _ _ _ Hfiles He), Hpath, unique_reviewOf, Hfound by done.
    simpl. apply reviewStatus_only; [done..|]. intros d' _. apply Honly.
  - by apply (fileStatus_single _ _ _ review).
Qed.

Lemma last_decision_wins_witness :
  ∃ files,
    extractFilesFromDiff sampleDiff (record sampleLedger "/repo" "b.txt" StateSkipped)
      "/repo" = Some files ∧
    (∀ e, e ∈ files → EPath e = "b.txt" → EStatus e = StateSkipped) ∧
    fileStatus (record sampleLedger "/repo" "b.txt" StateSkipped) "/repo" "b.txt"
    = StateSkipped.
Proof.
  apply last_decision_wins; [apply sampleLedger_wellKept|]. right; right. reflexivity.
Defined.



Lemma extract_empty diffText sourceBranch targetBranch sourceCommit targetCommit repo :
  ∃ files,
    extractFilesFromDiff diffText
      (emptyState sourceBranch targetBranch sourceCommit targetCommit) repo
    = Some files ∧
    ∀ e, e ∈ files → EStatus e = "unreviewed".
Proof.
  pose proof (extractFilesFromDiff_eq diffText
                (emptyState sourceBranch targetBranch sourceCommit targetCommit) repo)
    as Hfiles.
  eexists. split; [exact Hfiles|]. intros e He.
  by rewrite (entry_status _ _ _ _ _ Hfiles He).
Qed.

(** X16: a ledger that cannot be read does not fail the diff view: the
    page is rendered, and it lists every changed file as unreviewed. *)
Theorem unreadable_ledger_view env s rawQuery (d : disk) repo
    sourceCommit targetCommit diffText err :
  let repoPath := param rawQuery "repo" in
  let sourceBranch := param rawQuery "source" in
  let targetBranch := param rawQuery "target" in
  repoPath ≠ "" → sourceBranch ≠ "" → targetBranch ≠ "" →
  GetRepository s repoPath d = inl (Some repo) →
  git.GetBranchCommitHash env repo sourceBranch = inl sourceCommit →
  git.GetBranchCommitHash env repo targetBranch = inl targetCommit →
  LoadReviewState s repoPath sourceBranch targetBranch sourceCommit targetCommit d
  = inr err →
  git.GetDiff env repo sourceBranch targetBranch = inl diffText → diffText ≠ "" →
  ∃ data files,
    handleDiffView env s rawQuery d = DiffPage data ∧
    dFiles data = Some files ∧
    (∀ e, e ∈ files → EStatus e = "unreviewed") ∧
    (dFileStatus data = None ∨ dFileStatus data = Some "unreviewed").
Proof.
  intros repoPath sourceBranch targetBranch Hrepo Hsb Htb Hget Hsc Htc Hload
    Hdiff Htext.
  destruct (extract_empty diffText sourceBranch targetBranch sourceCommit
              targetCommit repoPath) as (files & Hfiles & Hall).
  unfold handleDiffView. fold repoPath sourceBranch targetBranch.
  rewrite decide_False by tauto. rewrite Hget, Hsc, Htc, Hload, Hdiff.
  rewrite decide_False by done. rewrite Hfiles. cbn [mbind option_bind].
  case_decide; [by eexists _, files; split_and!; [done..|by left]|].
  destruct (git.GetFileDiff _ _ _ _ _) as [fileDiff|err2];
    [|by eexists _, files; split_and!; [done..|by left]].
  destruct (nextFilePath_total (default [] (Some files)) (param rawQuery "file"))
    as [next ->].
  eexists _, files. split_and!; [done..|by right].
Qed.

Lemma unreadable_ledger_view_witness :
  ∃ data files,
    handleDiffView sampleEnv sampleStorage
      "repo=%2Frepo&source=feature&target=main&file=a.txt" brokenDisk
    = DiffPage data ∧
    dFiles data = Some files ∧
    (∀ e, e ∈ files → EStatus e = "unreviewed") ∧
    (dFileStatus data = None ∨ dFileStatus data = Some "unreviewed").
Proof.
  apply (unreadable_ledger_view sampleEnv sampleStorage
           "repo=%2Frepo&source=feature&target=main&file=a.txt" brokenDisk
           (git.NewRepository "/repo") "feature-hash" "main-hash"
           ("diff --git a/b.txt b/b.txt" +:+ nl +:+ "diff --git a/a.txt b/a.txt" +:+ nl)
           ErrUnmarshal).
  1-3: vm_compute; discriminate.
  1-5: by vm_compute.
  vm_compute. discriminate.
Defined.

End handlers.

(** * The registry of repositories *)

Section adding.
Import storage Server.

Lemma pair_fst {A B} (p : A * B) (a : A) : p.1 = a → p = (a, p.2).
Proof. destruct p. simpl. by intros ->. Qed.






(** X19: the repository at dir/name is named name. *)
Theorem repository_name dir name :
  kept name → git.Name (git.NewRepository (dir +:+ "/" +:+ name)) = name.
Proof. intros Hname. simpl. by apply Base_app. Qed.

Lemma repository_name_witness :
  git.Name (git.NewRepository ("/home/dev/src" +:+ "/" +:+ "diffty")) = "diffty".
Proof.
  apply repository_name. unfold kept. simpl. intuition discriminate.
Defined.

End adding.

(** * The query of the redirect *)

Section queries.
Import strings url storage Server.

Lemma QueryEscape_cons c s :
  QueryEscape (String c s) = escapeByte c +:+ QueryEscape s.
Proof.
  unfold escapeByte. simpl.
  destruct (shouldEscape c); [|done]. by destruct (Ascii.eqb c " ").
Qed.

Lemma ContainsByte_app s t x :
  ContainsByte (s +:+ t) x = ContainsByte s x || ContainsByte t x.
Proof.
  induction s as [|c s IH]; [done|]. rewrite app_cons. simpl.
  by destruct (Ascii.eqb c x).
Qed.

Lemma ContainsByte_false s x : ContainsByte s x = false ↔ ¬ contains s x.
Proof.
  induction s as [|c s IH]; simpl; [tauto|].
  destruct (Ascii.eqb_spec c x) as [->|Hne]; [intuition discriminate|].
  rewrite IH. tauto.
Qed.

Lemma escapeByte_plain c x :
  x = "&"%char ∨ x = ";"%char ∨ x = "="%char →
  ContainsByte (escapeByte c) x = false.
Proof.
  intros [-> | [-> | ->]];
    destruct c as [[] [] [] [] [] [] [] []]; vm_compute; reflexivity.
Qed.

Lemma QueryEscape_plain s x :
  x = "&"%char ∨ x = ";"%char ∨ x = "="%char →
  ContainsByte (QueryEscape s) x = false.
Proof.
  intros Hx. induction s as [|c s IH]; [done|].
  by rewrite QueryEscape_cons, ContainsByte_app, escapeByte_plain, IH.
Qed.

Lemma unescape_escapeByte c t :
  QueryUnescape (escapeByte c +:+ t)
  = t' ← QueryUnescape t; Some (String c t').
Proof. destruct c as [[] [] [] [] [] [] [] []]; reflexivity. Qed.

Lemma QueryUnescape_QueryEscape s : QueryUnescape (QueryEscape s) = Some s.
Proof.
  induction s as [|c s IH]; [done|].
  by rewrite QueryEscape_cons, unescape_escapeByte, IH.
Qed.

Lemma Cut_app k v x :
  ContainsByte k x = false → Cut (k +:+ String x v) x = (k, v, true).
Proof.
  induction k as [|c k IH].
  - intros _. change ("" +:+ String x v) with (String x v). simpl.
    by rewrite Ascii.eqb_refl.
  - rewrite app_cons. simpl. destruct (Ascii.eqb c x); [done|].
    intros Hk. by rewrite IH.
Qed.

Lemma parseQueryKey_pair m err kv :
  plainKey kv.1 → parseQueryKey (m, err) (pairText kv) = (addPair m kv, err).
Proof.
  destruct kv as [k v]. simpl. intros (Hne & Hsemi & Heq & _ & Hun).
  unfold parseQueryKey, pairText. simpl.
  rewrite ContainsByte_app, Hsemi. simpl.
  change ("" +:+ QueryEscape v) with (QueryEscape v).
  rewrite QueryEscape_plain by auto.
  rewrite decide_False.
  2:{ intros E. by pose proof (app_eq_empty _ _ E). }
  change ("=" +:+ QueryEscape v) with (String "=" (QueryEscape v)).
  rewrite Cut_app by done. by rewrite Hun, QueryUnescape_QueryEscape.
Qed.

Lemma pairText_plain kv : plainKey kv.1 → ¬ contains (pairText kv) "&".
Proof.
  intros (_ & _ & _ & Hamp & _). apply ContainsByte_false.
  unfold pairText. rewrite ContainsByte_app.
  apply ContainsByte_false in Hamp. rewrite Hamp. simpl.
  change ("=" +:+ QueryEscape kv.2) with (String "=" (QueryEscape kv.2)). simpl.
  apply QueryEscape_plain. auto.
Qed.

Lemma foldl_pairs pairs m err :
  Forall (λ kv, plainKey kv.1) pairs →
  foldl parseQueryKey (m, err) (pairText <$> pairs) = (foldl addPair m pairs, err).
Proof.
  intros Hp. revert m. induction Hp as [|kv pairs Hkv _ IH]; intros m; [done|].
  rewrite fmap_cons. cbn [foldl]. by rewrite parseQueryKey_pair, IH.
Qed.

Lemma parse_pairs pairs :
  pairs ≠ [] → Forall (λ kv, plainKey kv.1) pairs →
  ParseQuery (Join (pairText <$> pairs) "&") = (foldl addPair ∅ pairs, false).
Proof.
  intros Hne Hp. unfold ParseQuery.
  rewrite (separated_Split "&" _ (pairText <$> pairs)); [by apply foldl_pairs|].
  split_and!; [done| |by destruct pairs].
  apply Forall_fmap. eapply Forall_impl; [done|]. intros kv. apply pairText_plain.
Qed.

Lemma addPair_other pairs m k :
  k ∉ pairs.*1 → foldl addPair m pairs !! k = m !! k.
Proof.
  revert m. induction pairs as [|[k' v'] pairs IH]; intros m Hk; [done|].
  simpl in *. apply not_elem_of_cons in Hk as [Hne Hk].
  rewrite IH by done. unfold addPair. simpl. by apply lookup_insert_ne.
Qed.

Lemma addPair_lookup pairs m k v :
  NoDup pairs.*1 → (k, v) ∈ pairs → m !! k = None →
  foldl addPair m pairs !! k = Some [v].
Proof.
  revert m. induction pairs as [|[k' v'] pairs IH]; intros m Hnd Hin Hm.
  { by apply elem_of_nil in Hin. }
  simpl in *. apply NoDup_cons in Hnd as [Hk' Hnd].
  apply elem_of_cons in Hin as [[= <- <-]|Hin].
  - rewrite addPair_other by done. unfold addPair. simpl.
    rewrite Hm. apply lookup_insert_eq.
  - apply IH; [done..|]. unfold addPair. simpl.
    rewrite <- Hm. apply lookup_insert_ne. intros ->.
    apply Hk'. apply list_elem_of_fmap. by exists (k, v).
Qed.

Lemma param_pairs pairs k v :
  Forall (λ kv, plainKey kv.1) pairs → NoDup pairs.*1 → (k, v) ∈ pairs →
  param (Join (pairText <$> pairs) "&") k = v.
Proof.
  intros Hp Hnd Hin. unfold param, Query, Get.
  rewrite parse_pairs; [|by intros ->; apply elem_of_nil in Hin|done].
  simpl. by rewrite (addPair_lookup pairs ∅ k v).
Qed.

Lemma plainKey_known key :
  key ∈ ["repo"; "source"; "target"; "source_commit"; "target_commit"; "file"] →
  plainKey key.
Proof.
  intros Hkey. repeat (apply elem_of_cons in Hkey as [->|Hkey]);
    [..|by apply elem_of_nil in Hkey];
    (split_and!; [done|reflexivity|reflexivity|simpl; intuition discriminate
                 |reflexivity]).
Qed.

(** X20: what a redirect of [handleReviewState] names: the diff page, on a
    query from which the page reads back the repository, the branches
    and the commits of the request, as its file the next file of the
    request or, without one, the file decided upon, and no status. *)
Theorem redirect_reads_back s method rawQuery (d d' : disk) location code :
  handleReviewState s method rawQuery d = (Redirect location code, d') →
  ∃ query,
    location = "/diff?" +:+ query ∧ code = 303 ∧
    param query "repo" = param rawQuery "repo" ∧
    param query "source" = param rawQuery "source" ∧
    param query "target" = param rawQuery "target" ∧
    param query "source_commit" = param rawQuery "source_commit" ∧
    param query "target_commit" = param rawQuery "target_commit" ∧
    param query "file"
    = (if decide (param rawQuery "next" = "") then param rawQuery "file"
       else param rawQuery "next") ∧
    param query "status" = "".
Proof.
  unfold handleReviewState.
  destruct (decide (method ≠ "POST")); [done|].
  cbv zeta.
  destruct (decide (_ ∨ _)) as [|Hpresent]; [done|].
  destruct (decide (_ ∧ _)) as [|Hstatus]; [done|].
  destruct (LoadReviewState _ _ _ _ _ _ _) as [ledger|]; [|done].
  destruct (SaveReviewState _ _ _ _) as [[e|] d'']; [done|].
  set (file := if decide (param rawQuery "next" = "") then param rawQuery "file"
               else param rawQuery "next").
  set (pairs := [("repo", param rawQuery "repo");
                 ("source", param rawQuery "source");
                 ("target", param rawQuery "target");
                 ("source_commit", param rawQuery "source_commit");
                 ("target_commit", param rawQuery "target_commit");
                 ("file", file)]).
  assert (Forall (λ kv : string * string, plainKey kv.1) pairs) as Hplain.
  { subst pairs. repeat apply Forall_cons_2; [..|apply Forall_nil_2];
      apply plainKey_known; simpl; set_solver. }
  assert (NoDup pairs.*1) as Hnodup.
  { subst pairs. simpl. by apply (bool_decide_unpack _). }
  intros [= <- <- <-].
  exists (Join (pairText <$> pairs) "&"). split_and!.
  - subst pairs file. unfold pairText. simpl.
    destruct (decide (param rawQuery "next" = "")) as [Hnext|Hnext].
    + rewrite decide_False by tauto. rewrite decide_True by tauto.
      rewrite !app_assoc. reflexivity.
    + rewrite decide_True.
      2:{ split; [done|]. apply dec_stable. tauto. }
      rewrite !app_assoc. reflexivity.
  - done.
  - apply param_pairs; [done..|]. subst pairs. set_solver.
  - apply param_pairs; [done..|]. subst pairs. set_solver.
  - apply param_pairs; [done..|]. subst pairs. set_solver.
  - apply param_pairs; [done..|]. subst pairs. set_solver.
  - apply param_pairs; [done..|]. subst pairs. set_solver.
  - apply param_pairs; [done..|]. subst pairs. set_solver.
  - unfold param, Query, Get.
    rewrite parse_pairs; [|by subst pairs|done]. cbn [fst].
    rewrite addPair_other; [done|]. subst pairs. simpl.
    by apply (bool_decide_unpack _).
Qed.

Lemma redirect_reads_back_witness :
  ∃ query,
    "/diff?repo=%2Frepo&source=feature&target=main&source_commit=abc123&target_commit=def456&file=c+d.txt"
    = "/diff?" +:+ query ∧ 303 = 303 ∧
    param query "repo" = param sampleRequest "repo" ∧
    param query "source" = param sampleRequest "source" ∧
    param query "target" = param sampleRequest "target" ∧
    param query "source_commit" = param sampleRequest "source_commit" ∧
    param query "target_commit" = param sampleRequest "target_commit" ∧
    param query "file"
    = (if decide (param sampleRequest "next" = "") then param sampleRequest "file"
       else param sampleRequest "next") ∧
    param query "status" = "".
Proof.
  apply (redirect_reads_back sampleStorage "POST" sampleRequest ∅
           (handleReviewState sampleStorage "POST" sampleRequest ∅).2).
  apply pair_fst. vm_compute. reflexivity.
Defined.

End queries.

(** * Listings of git *)

Section listings.
Import strings git.

Lemma trimLeading_blank runes s fuel :
  blank s → String.length s ≤ fuel → trimLeading runes fuel s = "".
Proof.
  revert fuel. induction s as [|c s IH]; intros fuel Hblank Hfuel.
  - by destruct fuel.
  - destruct Hblank as [Hc Hblank]. destruct fuel as [|fuel]; simpl in *; [lia|].
    rewrite Hc. apply IH; [done|lia].
Qed.

Lemma TrimSpace_blank s : blank s → TrimSpace s = "".
Proof.
  intros Hblank. unfold TrimSpace. cbv zeta.
  rewrite (trimLeading_blank spaceRunes s (String.length s)) by (done || lia).
  reflexivity.
Qed.

(** X21: [GetFiles] never answers with the one file of the empty name, and
    on an output of white space only it answers with no file. *)
Theorem files_of_blank_output env r sourceBranch targetBranch out :
  Run env ["git"; "-C"; Path r; "diff"; "--name-only"; targetBranch; sourceBranch]
  = inl out →
  ∃ files,
    GetFiles env r sourceBranch targetBranch = inl files ∧
    files ≠ [""] ∧
    (blank out → files = []).
Proof.
  intros Hrun. unfold GetFiles. rewrite Hrun. cbv zeta.
  destruct (decide _) as [Hone|Hmore].
  - exists []. by split_and!.
  - eexists. split_and!; [done| |].
    + intros Hfiles. apply Hmore. by rewrite Hfiles.
    + intros Hblank. destruct Hmore. by rewrite TrimSpace_blank.
Qed.

Lemma files_of_blank_output_witness :
  ∃ files,
    GetFiles {| Getwd := None; Stat := λ _, false; Run := λ _, inl (" " +:+ nl) |}
      (NewRepository "/repo") "feature" "main" = inl files ∧
    files ≠ [""] ∧
    (blank (" " +:+ nl) → files = []).
Proof.
  by apply (files_of_blank_output
              {| Getwd := None; Stat := λ _, false; Run := λ _, inl (" " +:+ nl) |}
              (NewRepository "/repo") "feature" "main" (" " +:+ nl)).
Defined.

(** X22: [GetBranches] never answers with no branch: on an output of white
    space only it answers with the one branch of the empty name. *)
Theorem branches_of_blank_output env r out :
  Run env ["git"; "-C"; Path r; "branch"; "--format=%(refname:short)"] = inl out →
  ∃ branches,
    GetBranches env r = inl branches ∧
    branches ≠ [] ∧
    (blank out → branches = [""]).
Proof.
  intros Hrun. unfold GetBranches. rewrite Hrun.
  eexists. split_and!; [done|apply Split_nonempty|].
  intros Hblank. by rewrite TrimSpace_blank.
Qed.

Lemma branches_of_blank_output_witness :
  ∃ branches,
    GetBranches {| Getwd := None; Stat := λ _, false; Run := λ _, inl nl |}
      (NewRepository "/repo") = inl branches ∧
    branches ≠ [] ∧
    (blank nl → branches = [""]).
Proof.
  by apply (branches_of_blank_output
              {| Getwd := None; Stat := λ _, false; Run := λ _, inl nl |}
              (NewRepository "/repo") nl).
Defined.

End listings.
